(** * HyperLogLog sketches of [task3/dsa5.cpp]

    A shallow embedding of the two cardinality sketches of the file, [HLL]
    (one [int] per register) and [HLL_Improved] (one [std::bitset<5>] per
    register), together with the string hash [HashGen::hash] that the
    driver plugs into them.

    - [uint32_t] and [unsigned long long] values are integers of [Z] with
      the wrap-around written out ([wrap32], [wrap64]);
    - [double] values are the kernel's binary64 floats ([PrimFloat]), so
      every rounding of [estimate] is the machine's;
    - [std::log] belongs to the C library, not to the file: it is a
      parameter [log] of [estimate];
    - an operation whose C++ behaviour is undefined (a shift by a count
      outside the width of its operand, an index outside the vector, a
      loop that does not end) yields [None]. *)

From Stdlib Require Import ZArith Lia Bool String Ascii List Floats.
From stdpp Require Import base option list strings gmap.

#[local] Set Warnings "-inexact-float".
Local Open Scope Z_scope.

(** ** Machine integers *)

Definition wrap32 (x : Z) : Z := x mod 2 ^ 32.
Definition wrap64 (x : Z) : Z := x mod 2 ^ 64.

(** [x >> n] on a [uint32_t]; the count must lie in [0, 32). *)
Definition shr32 (x n : Z) : option Z :=
  if (0 <=? n) && (n <? 32) then Some (Z.shiftr x n) else None.

(** [x << n] on a [uint32_t]: the bits shifted past bit 31 are lost. *)
Definition shl32 (x n : Z) : option Z :=
  if (0 <=? n) && (n <? 32) then Some (wrap32 (Z.shiftl x n)) else None.

(** [1ULL << r]. The count of a reachable register is at most 33; at a
    count of 64 or more, where C++ leaves the shift undefined, the model
    keeps the bits that fit in 64, that is none. *)
Definition shl64 (x r : Z) : Z := wrap64 (Z.shiftl x r).

(** [1 << b] on an [int], for the constructor's [m(1<<b)]. *)
Definition shl_int (x b : Z) : Z := Z.shiftl x b.

(** Conversion of a [uint32_t] to [int] (two's complement). *)
Definition int_of_uint32 (x : Z) : Z :=
  if x <? 2 ^ 31 then x else x - 2 ^ 32.

(** ** Doubles *)

(** Conversion of an integer to [double]: the nearest binary64 value,
    ties to even. *)
Definition double_of_Z (z : Z) : float :=
  SF2Prim (binary_normalize prec emax z 0 false).

(** ** [HashGen::hash] *)

Module HashGen.

(** [h = h * 31 + (unsigned char) c] over the characters of [s],
    from [h = 0]. *)
Fixpoint hash_from (h : Z) (s : string) : Z :=
  match s with
  | EmptyString => h
  | String c s' => hash_from (wrap32 (h * 31 + Z.of_nat (nat_of_ascii c))) s'
  end.

Definition hash (s : string) : Z := hash_from 0 s.

(** [counts[k]++] on an [int]: past [INT_MAX] the increment is
    undefined. *)
Definition incr_int (c : Z) : option Z :=
  if c <? 2 ^ 31 - 1 then Some (c + 1) else None.

(** [counts[hash(s) % 100]++] *)
Definition count_item (counts : list Z) (s : string) : option (list Z) :=
  let k := Z.to_nat (hash s mod 100) in
  c ← counts !! k;
  c' ← incr_int c;
  Some (<[k := c']> counts).

(** The first loop of [test], from [counts(100, 0)]. *)
Fixpoint count_items (counts : list Z) (stream : list string) : option (list Z) :=
  match stream with
  | [] => Some counts
  | s :: stream' => counts' ← count_item counts s; count_items counts' stream'
  end.

Definition bucket_counts (stream : list string) : option (list Z) :=
  count_items (replicate 100 0) stream.

(** [chi2 += (c-expected)*(c-expected)/expected] *)
Definition chi2_step (expected chi2 : float) (c : Z) : float :=
  (chi2 + (double_of_Z c - expected) * (double_of_Z c - expected) / expected)%float.

(** [test]: the value of [chi2] that it prints, with
    [expected = stream.size() / 100.0]. *)
Definition test (stream : list string) : option float :=
  counts ← bucket_counts stream;
  let expected := (double_of_Z (Z.of_nat (length stream)) / 100)%float in
  Some (fold_left (chi2_step expected) counts 0%float).

End HashGen.

(** ** The leading-zero loop, shared by the two classes' [count_zeros]

    [while ((x & 0x80000000) == 0) { zeros++; x <<= 1; }]: one unit of
    fuel per test of the condition. *)
Fixpoint count_zeros_loop (fuel : nat) (x zeros : Z) : option Z :=
  match fuel with
  | O => None
  | S fuel' =>
      if Z.land x 0x80000000 =? 0
      then count_zeros_loop fuel' (wrap32 (Z.shiftl x 1)) (zeros + 1)
      else Some zeros
  end.

(** Tests of the loop condition that a 32-bit word can need. *)
Definition loop_fuel : nat := 32.

(** ** The loop of [estimate], the same in the two classes *)

(** [1.0 / (1ULL << r)]: what a register of value [r] adds to [sum]. *)
Definition reg_term (r : Z) : float := (1 / double_of_Z (shl64 1 r))%float.

(** [sum] and [zero_regs] after one more register value [r]. *)
Definition estimate_step (acc : float * Z) (r : Z) : float * Z :=
  let '(sum, zero_regs) := acc in
  ((sum + reg_term r)%float, if r =? 0 then zero_regs + 1 else zero_regs).

(** [sum] and [zero_regs] when the loop over the registers ends. *)
Definition estimate_loop (rs : list Z) : float * Z :=
  fold_left estimate_step rs (0%float, 0).

(** ** Member functions that run on the object

    [estimate] is not declared [const] in either class: it is handed the
    object and could write to it. Such a member function is a computation
    on the object [Obj]: undefined, or a result together with the object
    as the body leaves it. *)
Definition method (Obj A : Type) : Type := Obj -> option (A * Obj).

#[global] Instance method_ret {Obj : Type} : MRet (method Obj) :=
  fun A a self => Some (a, self).

#[global] Instance method_bind {Obj : Type} : MBind (method Obj) :=
  fun A A' k c self =>
    match c self with
    | Some (a, self') => k a self'
    | None => None
    end.

(** [for (... : regs) body]: [count] turns of the body from position [i]
    on, each on the object the turn before has left; [acc] holds the
    locals that the body updates. *)
Fixpoint range_for {Obj A : Type} (body : nat -> A -> method Obj A)
    (count i : nat) (acc : A) : method Obj A :=
  match count with
  | O => mret acc
  | S count' => acc' ← body i acc; range_for body count' (S i) acc'
  end.

(** ** [class HLL] *)

Module HLL.

Record t := mk {
  B : Z;
  m : Z;
  regs : list Z;
  hash_func : string -> Z
}.

(** [HLL(b, h) : B(b), m(1<<b), regs(m, 0), hash_func(h)] *)
Definition new (b : Z) (h : string -> Z) : t :=
  mk b (shl_int 1 b) (replicate (Z.to_nat (shl_int 1 b)) 0) h.

Definition count_zeros (self : t) (x : Z) : option Z :=
  if x =? 0 then Some (32 - B self)
  else count_zeros_loop loop_fuel x 0.

(** The first four statements of [add]: the register index [idx] and
    the rank [zeros] of the item. The hash capability returns a
    [uint32_t]: its result is taken modulo [2^32]. *)
Definition index_and_rank (self : t) (s : string) : option (Z * Z) :=
  let h := wrap32 (hash_func self s) in
  i ← shr32 h (32 - B self);
  let idx := int_of_uint32 i in
  w ← shl32 h (B self);
  z ← count_zeros self w;
  Some (idx, z + 1).

(** [if (zeros > regs[idx]) regs[idx] = zeros;] *)
Definition add (self : t) (s : string) : option t :=
  '(idx, zeros) ← index_and_rank self s;
  if idx <? 0 then None else
  r ← regs self !! Z.to_nat idx;
  if zeros >? r
  then Some (mk (B self) (m self) (<[Z.to_nat idx := zeros]> (regs self))
               (hash_func self))
  else Some self.

Section Estimate.
Variable log : float -> float.

Definition estimate (self : t) : float :=
  let '(sum, zero_regs) := estimate_loop (regs self) in
  let fm := double_of_Z (m self) in
  let E := (0.7213 * fm * fm / sum)%float in
  if (E <=? 2.5 * fm)%float && (zero_regs >? 0)
  then (fm * log (fm / double_of_Z zero_regs))%float
  else E.

(** The call [estimate()] on the object, statement by statement. What
    the body does with the object are reads: of [m], of the bounds of
    [regs] for the loop, and of one element per turn ([int r : regs] copies it). *)
Definition read_m : method t Z := fun self => Some (m self, self).

Definition regs_size : method t nat :=
  fun self => Some (length (regs self), self).

Definition read_reg (i : nat) : method t Z :=
  fun self => r ← regs self !! i; Some (r, self).

Definition estimate_call : method t float :=
  count ← regs_size;
  '(sum, zero_regs) ←
    range_for (fun i acc => r ← read_reg i; mret (estimate_step acc r))
      count 0%nat (0%float, 0);
  m0 ← read_m;
  let E := (0.7213 * double_of_Z m0 * double_of_Z m0 / sum)%float in
  m1 ← read_m;
  if (E <=? 2.5 * double_of_Z m1)%float && (zero_regs >? 0)
  then
    m2 ← read_m;
    mret (double_of_Z m2 * log (double_of_Z m2 / double_of_Z zero_regs))%float
  else mret E.
End Estimate.

(** [fill(regs.begin(), regs.end(), 0)] *)
Definition clear (self : t) : t :=
  mk (B self) (m self) (replicate (length (regs self)) 0) (hash_func self).

(** [add] over a stream, first item first. *)
Fixpoint add_all (self : t) (items : list string) : option t :=
  match items with
  | [] => Some self
  | s :: items' => self' ← add self s; add_all self' items'
  end.

(** A sketch as its constructor leaves the fields, at a precision the
    data model allows. *)
Definition valid (self : t) : Prop :=
  1 <= B self <= 16 /\ m self = 2 ^ B self /\
  length (regs self) = Z.to_nat (m self).

(** The states a caller can bring a sketch of precision [b] to. *)
Inductive reachable (b : Z) (h : string -> Z) : t -> Prop :=
| reach_new : reachable b h (new b h)
| reach_add st s st' :
    reachable b h st -> add st s = Some st' -> reachable b h st'
| reach_clear st : reachable b h st -> reachable b h (clear st).

(** The public operations, as calls of a driver; [run] collects what the
    [estimate] calls return. *)
Inductive call := Add (s : string) | Estimate | Clear.

Definition step (log : float -> float) (st : t) (c : call)
  : option (t * list float) :=
  match c with
  | Add s => st' ← add st s; Some (st', [])
  | Estimate => '(e, st') ← estimate_call log st; Some (st', [e])
  | Clear => Some (clear st, [])
  end.

Fixpoint run (log : float -> float) (st : t) (cs : list call)
  : option (t * list float) :=
  match cs with
  | [] => Some (st, [])
  | c :: cs' =>
      '(st1, out1) ← step log st c;
      '(st2, out2) ← run log st1 cs';
      Some (st2, out1 ++ out2)
  end.

Definition is_estimate (c : call) : bool :=
  match c with Estimate => true | _ => false end.

End HLL.

(** ** [class HLL_Improved] *)

(** [std::bitset<5>] built from an integer keeps its five low bits;
    [to_ulong] reads them back. A register is stored as that value. *)
Definition bitset5 (v : Z) : Z := Z.land v 31.

Module HLL_Improved.

Record t := mk {
  B : Z;
  m : Z;
  regs : list Z;
  hash_func : string -> Z
}.

(** [HLL_Improved(b, h) : B(b), m(1<<b), regs(m), hash_func(h)]: every
    bitset starts with all bits clear. *)
Definition new (b : Z) (h : string -> Z) : t :=
  mk b (shl_int 1 b) (replicate (Z.to_nat (shl_int 1 b)) (bitset5 0)) h.

Definition count_zeros (self : t) (x : Z) : option Z :=
  if x =? 0 then Some (32 - B self)
  else count_zeros_loop loop_fuel x 0.

(** The register index and the rank before it is clamped. *)
Definition index_and_rank (self : t) (s : string) : option (Z * Z) :=
  let h := wrap32 (hash_func self s) in
  i ← shr32 h (32 - B self);
  let idx := int_of_uint32 i in
  w ← shl32 h (B self);
  z ← count_zeros self w;
  Some (idx, z + 1).

(** [if (zeros > 31) zeros = 31;] *)
Definition clamp (zeros : Z) : Z := if zeros >? 31 then 31 else zeros.

(** [if (zeros > (int)regs[idx].to_ulong()) regs[idx] = zeros;] *)
Definition add (self : t) (s : string) : option t :=
  '(idx, zeros) ← index_and_rank self s;
  let zeros := clamp zeros in
  if idx <? 0 then None else
  r ← regs self !! Z.to_nat idx;
  if zeros >? r
  then Some (mk (B self) (m self)
               (<[Z.to_nat idx := bitset5 zeros]> (regs self))
               (hash_func self))
  else Some self.

Section Estimate.
Variable log : float -> float.

Definition estimate (self : t) : float :=
  let '(sum, zero_regs) := estimate_loop (regs self) in
  let fm := double_of_Z (m self) in
  let E := (0.7213 * fm * fm / sum)%float in
  if (E <=? 2.5 * fm)%float && (zero_regs >? 0)
  then (fm * log (fm / double_of_Z zero_regs))%float
  else E.

(** The call [estimate()] on the object, statement by statement. What
    the body does with the object are reads: of [m], of the bounds of
    [regs] for the loop, and of one element per turn ([auto& r : regs]
    refers to it and [r.to_ulong()] reads it). *)
Definition read_m : method t Z := fun self => Some (m self, self).

Definition regs_size : method t nat :=
  fun self => Some (length (regs self), self).

Definition read_reg (i : nat) : method t Z :=
  fun self => r ← regs self !! i; Some (r, self).

Definition estimate_call : method t float :=
  count ← regs_size;
  '(sum, zero_regs) ←
    range_for (fun i acc => r ← read_reg i; mret (estimate_step acc r))
      count 0%nat (0%float, 0);
  m0 ← read_m;
  let E := (0.7213 * double_of_Z m0 * double_of_Z m0 / sum)%float in
  m1 ← read_m;
  if (E <=? 2.5 * double_of_Z m1)%float && (zero_regs >? 0)
  then
    m2 ← read_m;
    mret (double_of_Z m2 * log (double_of_Z m2 / double_of_Z zero_regs))%float
  else mret E.
End Estimate.

(** [return m * 5 / 8;] computed on [int] and returned as [size_t]. *)
Definition memory_usage (self : t) : Z := wrap64 (Z.quot (m self * 5) 8).

(** [add] over a stream, first item first. *)
Fixpoint add_all (self : t) (items : list string) : option t :=
  match items with
  | [] => Some self
  | s :: items' => self' ← add self s; add_all self' items'
  end.

(** A sketch as its constructor leaves the fields, at a precision the
    data model allows. *)
Definition valid (self : t) : Prop :=
  1 <= B self <= 16 /\ m self = 2 ^ B self /\
  length (regs self) = Z.to_nat (m self).

(** The states a caller can bring a sketch of precision [b] to. *)
Inductive reachable (b : Z) (h : string -> Z) : t -> Prop :=
| reach_new : reachable b h (new b h)
| reach_add st s st' :
    reachable b h st -> add st s = Some st' -> reachable b h st'.

(** The public operations, as calls of a driver; [run] collects what the
    [estimate] calls return. *)
Inductive call := Add (s : string) | Estimate.

Definition step (log : float -> float) (st : t) (c : call)
  : option (t * list float) :=
  match c with
  | Add s => st' ← add st s; Some (st', [])
  | Estimate => '(e, st') ← estimate_call log st; Some (st', [e])
  end.

Fixpoint run (log : float -> float) (st : t) (cs : list call)
  : option (t * list float) :=
  match cs with
  | [] => Some (st, [])
  | c :: cs' =>
      '(st1, out1) ← step log st c;
      '(st2, out2) ← run log st1 cs';
      Some (st2, out1 ++ out2)
  end.

Definition is_estimate (c : call) : bool :=
  match c with Estimate => true | _ => false end.

End HLL_Improved.

(** ** [class StreamGen] *)

(** Conversion of a [size_t] to [int]. *)
Definition int_of_size_t (x : Z) : Z := int_of_uint32 (wrap32 x).

Module StreamGen.

Definition chars : string :=
  "abcdefghijklmnopqrstuvwxyzABCDEFGHIJKLMNOPQRSTUVWXYZ0123456789-".

Section Rng.
(** [std::mt19937] and [std::uniform_int_distribution<int>] belong to the
    C++ library: the state of the generator is a type [G], and a draw
    from the distribution over [a, b] is a function of that state that
    returns the number drawn and the next state. *)
Variable G : Type.
Variable uniform_int : Z -> Z -> G -> Z * G.

(** The constructor's [char_dist(0, chars.size()-1)] and
    [len_dist(5, 30)]. *)
Definition char_dist : G -> Z * G :=
  uniform_int 0 (Z.of_nat (String.length chars) - 1).
Definition len_dist : G -> Z * G := uniform_int 5 30.

(** [for(int i=0; i<len; i++) s += chars[char_dist(gen)];] with [todo]
    rounds to go; an index outside [chars] is undefined. *)
Fixpoint make_string_loop (todo : nat) (s : string) (gen : G)
  : option (string * G) :=
  match todo with
  | O => Some (s, gen)
  | S todo' =>
      let '(k, gen') := char_dist gen in
      if k <? 0 then None else
      c ← String.get (Z.to_nat k) chars;
      make_string_loop todo' (String.append s (String c EmptyString)) gen'
  end.

Definition make_string (gen : G) : option (string * G) :=
  let '(len, gen') := len_dist gen in
  make_string_loop (Z.to_nat len) EmptyString gen'.

(** [for(int i=0; i<n; i++) v.push_back(make_string());] *)
Fixpoint make_stream_loop (todo : nat) (v : list string) (gen : G)
  : option (list string * G) :=
  match todo with
  | O => Some (v, gen)
  | S todo' =>
      '(s, gen') ← make_string gen;
      make_stream_loop todo' (v ++ [s]) gen'
  end.

Definition make_stream (n : Z) (gen : G) : option (list string * G) :=
  make_stream_loop (Z.to_nat n) [] gen.
End Rng.

(** [int n = s.size() * p / 100;]: [p] is converted to [size_t], the
    product and the quotient are computed there, and the result is
    converted to [int]. *)
Definition part_size (size p : Z) : Z :=
  int_of_size_t (wrap64 (size * wrap64 p) / 100).

(** [std::vector<std::string> part(s.begin(), s.begin()+n);]: the range
    is defined when [0 <= n <= s.size()]. *)
Definition split_part (s : list string) (p : Z) : option (list string) :=
  let n := part_size (Z.of_nat (length s)) p in
  if (0 <=? n) && (n <=? Z.of_nat (length s))
  then Some (take (Z.to_nat n) s)
  else None.

Definition split_stream (s : list string) (percents : list Z)
  : option (list (list string)) :=
  mapM (split_part s) percents.

End StreamGen.

(** ** [count_unique] *)

(** [set.insert(s)] for every string, then [return set.size();] as an
    [int]. *)
Definition count_unique (stream : list string) : Z :=
  int_of_size_t (Z.of_nat (size (list_to_set stream : gset string))).

(** ** The experiment loop of [main] *)

Module Driver.

(** What one line of [experiment.csv] is computed from: [real_part],
    [est] and [err]. *)
Record row := mk_row { real_part : Z; est : float; err : float }.

(** [for(int i=0; i<parts.size(); i++)]: every string of [parts[i]] is
    added to the one sketch, then
    [real_part = count_unique(parts[i])], [est = hll.estimate()] and
    [err = std::abs(est-real_part)/real_part*100]. *)
Fixpoint feed_parts (log : float -> float) (hll : HLL.t)
    (parts : list (list string)) : option (list row) :=
  match parts with
  | [] => Some []
  | part :: parts' =>
      hll' ← HLL.add_all hll part;
      let real_part := count_unique part in
      let est := HLL.estimate log hll' in
      let err := (abs (est - double_of_Z real_part) / double_of_Z real_part * 100)%float in
      rows ← feed_parts log hll' parts';
      Some (mk_row real_part est err :: rows)
  end.

(** One run on a stream: [parts = gen.split_stream(full_stream, percents)]
    and a new [HLL hll(8, hash)] fed with the parts. *)
Definition run_experiment (log : float -> float)
    (full_stream : list string) (percents : list Z) : option (list row) :=
  parts ← StreamGen.split_stream full_stream percents;
  feed_parts log (HLL.new 8 HashGen.hash) parts.

End Driver.

(** ** The specification's vocabulary *)

(** Zero bits of [w] read downwards from bit [top], over at most [width]
    positions, up to the first bit that is set. *)
Fixpoint leading_zeros (width : nat) (top : Z) (w : Z) : Z :=
  match width with
  | O => 0
  | S k => if Z.testbit w top then 0 else 1 + leading_zeros k (top - 1) w
  end.

(** The register index of a hash value: its top [precision] bits. *)
Definition spec_index (precision h : Z) : Z := Z.shiftr h (32 - precision).

(** The remainder: the other bits, left-aligned in a 32-bit word. *)
Definition spec_remainder (precision h : Z) : Z :=
  wrap32 (Z.shiftl h precision).

(** The rank: leading zeros of the remainder within its window of
    [32 - precision] bits, plus one. *)
Definition spec_rank (precision h : Z) : Z :=
  leading_zeros (Z.to_nat (32 - precision)) 31 (spec_remainder precision h) + 1.

(** [ceil (a / b)] for a positive [b]. *)
Definition ceil_div (a b : Z) : Z := (a + b - 1) / b.

(** [2^(-v)] as a double. *)
Definition pow2_neg (v : Z) : float := Z.ldexp 1 (- v).

(** [Z], the sum over the registers of [2^(-value)], added in register
    order. *)
Definition Z_sum (rs : list Z) : float :=
  fold_left (fun acc r => (acc + pow2_neg r)%float) rs 0%float.

(** The number of registers whose value is 0. *)
Definition zeroCount (rs : list Z) : Z :=
  Z.of_nat (length (filter (fun r => r = 0) rs)).

(** [E_raw = 0.7213 * m^2 / Z]. *)
Definition E_raw (m : Z) (rs : list Z) : float :=
  (0.7213 * double_of_Z (m * m) / Z_sum rs)%float.

(** The estimate as the specification words it. *)
Definition spec_estimate (log : float -> float) (m : Z) (rs : list Z) : float :=
  if (E_raw m rs <=? 2.5 * double_of_Z m)%float && (0 <? zeroCount rs)
  then (double_of_Z m * log (double_of_Z m / double_of_Z (zeroCount rs)))%float
  else E_raw m rs.

(** ** Two of the claims, as predicates *)

(** After the same [add] calls on a fresh sketch of each class, the two
    [estimate] calls return the same double. *)
Definition storage_equivalent
    (log : float -> float) (b : Z) (h : string -> Z) (items : list string) : Prop :=
  exists s1 s2,
    HLL.add_all (HLL.new b h) items = Some s1 /\
    HLL_Improved.add_all (HLL_Improved.new b h) items = Some s2 /\
    HLL.estimate log s1 = HLL_Improved.estimate log s2.

(** One [add] changes one register and no other. *)
Definition mutates_exactly_one (rs rs' : list Z) : Prop :=
  exists i : nat, rs' !! i <> rs !! i /\ forall j : nat, j <> i -> rs' !! j = rs !! j.

(** ** Auxiliary predicates of the proofs *)

(** No entry of [rs] is above the entry of [rs'] at the same index. *)
Definition regs_le (rs rs' : list Z) : Prop :=
  forall i r, rs !! i = Some r -> exists r', rs' !! i = Some r' /\ r <= r'.

(** The register of an item holds at least the item's rank. *)
Definition HLL_covers (st : HLL.t) (s : string) : Prop :=
  let h := wrap32 (HLL.hash_func st s) in
  exists r, HLL.regs st !! Z.to_nat (spec_index (HLL.B st) h) = Some r /\
            spec_rank (HLL.B st) h <= r.

Definition HLL_Improved_covers (st : HLL_Improved.t) (s : string) : Prop :=
  let h := wrap32 (HLL_Improved.hash_func st s) in
  exists r,
    HLL_Improved.regs st !! Z.to_nat (spec_index (HLL_Improved.B st) h) = Some r /\
    HLL_Improved.clamp (spec_rank (HLL_Improved.B st) h) <= r.

(** The two sketches hold the same fields. *)
Definition same_fields (s1 : HLL.t) (s2 : HLL_Improved.t) : Prop :=
  HLL.B s1 = HLL_Improved.B s2 /\ HLL.m s1 = HLL_Improved.m s2 /\
  HLL.regs s1 = HLL_Improved.regs s2 /\
  HLL.hash_func s1 = HLL_Improved.hash_func s2.

(** Positive and finite. *)
Definition sf_pos_finite (x : spec_float) : bool :=
  match x with S754_finite false _ _ => true | _ => false end.

(** Positive: finite or [+infinity]. *)
Definition sf_pos (x : spec_float) : bool :=
  match x with
  | S754_finite false _ _ | S754_infinity false => true
  | _ => false
  end.

Definition sf_zero (x : spec_float) : bool :=
  match x with S754_zero _ => true | _ => false end.

(** The same on primitive doubles. *)
Definition pos_finite (x : float) : bool := sf_pos_finite (Prim2SF x).
Definition pos_or_zero (x : float) : bool :=
  sf_zero (Prim2SF x) || sf_pos (Prim2SF x).

(** ** Vocabulary of the further properties *)

(** The register at index [i], from [old], after the items of a stream
    whose index is [i] have raised it to their ranks. *)
Definition top_rank (idx : string -> nat) (rank : string -> Z)
    (i : nat) (old : Z) (items : list string) : Z :=
  fold_left (fun acc s => if decide (idx s = i) then Z.max acc (rank s) else acc)
    items old.

(** The registers after a stream, each raised to the ranks of its items. *)
Definition raise_all (idx : string -> nat) (rank : string -> Z)
    (rs : list Z) (items : list string) : list Z :=
  imap (fun i old => top_rank idx rank i old items) rs.

(** Index and rank of an item in a sketch of precision [b] and hash [h]. *)
Definition item_index (b : Z) (h : string -> Z) (s : string) : nat :=
  Z.to_nat (spec_index b (wrap32 (h s))).

(** Its rank in [HLL], and in [HLL_Improved], which caps it at 31. *)
Definition item_rank (b : Z) (h : string -> Z) (s : string) : Z :=
  spec_rank b (wrap32 (h s)).

Definition item_rank_clamped (b : Z) (h : string -> Z) (s : string) : Z :=
  HLL_Improved.clamp (spec_rank b (wrap32 (h s))).

(** The items of a stream that [test] counts in bucket [k]. *)
Definition hits (k : nat) (stream : list string) : Z :=
  Z.of_nat (length (filter (fun s => Z.to_nat (HashGen.hash s mod 100) = k) stream)).

(** [chi2] over the counts of a stream of one string that falls in
    bucket [k]. *)
Definition chi2_single (k : nat) : float :=
  fold_left (HashGen.chi2_step (double_of_Z 1 / 100)%float)
    (<[k := 1]> (replicate 100 0)) 0%float.

(** Every character of [s] is one of [StreamGen]'s [chars]. *)
Definition over_chars (s : string) : Prop :=
  forall n c, String.get n s = Some c -> exists k, String.get k StreamGen.chars = Some c.

(** What [make_string] promises of a string. *)
Definition generated (s : string) : Prop :=
  (5 <= String.length s <= 30)%nat /\ over_chars s.

(** Percentages in ascending order. *)
Definition ascending (percents : list Z) : Prop :=
  forall i j p q, (i <= j)%nat -> percents !! i = Some p -> percents !! j = Some q -> p <= q.

(** * The code on concrete inputs *)

Example hash_abc :
  HashGen.hash "abc"%string = 96354.
Proof. reflexivity. Qed.

(** The hash of the empty string is 0. *)
Example hash_empty : HashGen.hash EmptyString = 0.
Proof. reflexivity. Qed.

(** The loop counts the zero bits above the highest set bit. *)
Example count_zeros_loop_examples :
  count_zeros_loop loop_fuel 0x80000000 0 = Some 0 /\
  count_zeros_loop loop_fuel 0x00010000 0 = Some 15 /\
  count_zeros_loop loop_fuel 1 0 = Some 31.
Proof. repeat split; vm_compute; reflexivity. Qed.

(** At precision 4 a remainder of 0 counts as 28 zeros in [HLL], and the
    hash value [0x30000000] goes to register 3 with rank 29. *)
Example HLL_add_example :
  let st := HLL.new 4 (fun _ => 0x30000000) in
  HLL.count_zeros st 0 = Some 28 /\
  HLL.index_and_rank st EmptyString = Some (3, 29) /\
  HLL.regs <$> HLL.add st EmptyString
    = Some [0; 0; 0; 29; 0; 0; 0; 0; 0; 0; 0; 0; 0; 0; 0; 0].
Proof. repeat split; vm_compute; reflexivity. Qed.

(** The same call on [HLL_Improved]; at precision 1 the rank 32 of a
    remainder of 0 is stored as 31. *)
Example HLL_Improved_add_example :
  HLL_Improved.regs <$>
    HLL_Improved.add (HLL_Improved.new 4 (fun _ => 0x30000000)) EmptyString
    = Some [0; 0; 0; 29; 0; 0; 0; 0; 0; 0; 0; 0; 0; 0; 0; 0] /\
  HLL.regs <$> HLL.add (HLL.new 1 (fun _ => 0)) EmptyString = Some [32; 0] /\
  HLL_Improved.regs <$> HLL_Improved.add (HLL_Improved.new 1 (fun _ => 0)) EmptyString
    = Some [31; 0].
Proof. repeat split; vm_compute; reflexivity. Qed.

(** Outside the data model: at precision 0 the shift [h >> 32] is
    undefined, and the model of [add] does not return. *)
Example add_precision_0 : HLL.add (HLL.new 0 (fun _ => 0)) EmptyString = None.
Proof. reflexivity. Qed.

(** One register of value 5 among 16: [sum] is [15 + 2^(-5)], 15
    registers are counted at 0. *)
Example estimate_loop_example :
  estimate_loop [0; 0; 0; 5; 0; 0; 0; 0; 0; 0; 0; 0; 0; 0; 0; 0]
    = (15.03125%float, 15).
Proof. vm_compute. reflexivity. Qed.

(** * Bits of a 32-bit word *)

Lemma wrap32_range x : 0 <= wrap32 x < 2 ^ 32.
Proof. unfold wrap32. apply Z.mod_pos_bound. lia. Qed.

Lemma wrap32_small x : 0 <= x < 2 ^ 32 -> wrap32 x = x.
Proof. intros Hx. unfold wrap32. apply Z.mod_small, Hx. Qed.

(** The loop condition [(x & 0x80000000) == 0] tests bit 31. *)
Lemma top_bit_clear x :
  0 <= x < 2 ^ 32 -> (Z.land x 0x80000000 =? 0) = (x <? 2 ^ 31).
Proof.
  intros Hx.
  assert (Hb : Z.land x (2 ^ 31) = if Z.testbit x 31 then 2 ^ 31 else 0).
  { apply Z.bits_inj'. intros n Hn. rewrite Z.land_spec, Z.pow2_bits_eqb by lia.
    destruct (Z.eqb_spec 31 n) as [<- | Hne].
    - destruct (Z.testbit x 31) eqn:E;
        [ now rewrite Z.pow2_bits_eqb, Z.eqb_refl by lia | now rewrite Z.bits_0 ].
    - rewrite andb_false_r. destruct (Z.testbit x 31).
      + rewrite Z.pow2_bits_eqb by lia. symmetry. now apply Z.eqb_neq.
      + now rewrite Z.bits_0. }
  change 0x80000000 with (2 ^ 31). rewrite Hb.
  destruct (Z.testbit x 31) eqn:E.
  - apply Z.testbit_true in E; [ | lia ].
    assert (Hq : x / 2 ^ 31 <> 0) by (intros H0; rewrite H0 in E; discriminate).
    assert (Hge : ~ x < 2 ^ 31) by (intros Hlt; apply Hq; apply Z.div_small; lia).
    symmetry. apply Z.ltb_ge. lia.
  - apply Z.testbit_false in E; [ | lia ].
    assert (Hq : 0 <= x / 2 ^ 31 < 2).
    { split; [ apply Z.div_pos; lia | apply Z.div_lt_upper_bound; lia ]. }
    assert (Hq0 : x / 2 ^ 31 = 0).
    { destruct (Z.eq_dec (x / 2 ^ 31) 0) as [|Hne]; [ done | ].
      assert (Hq1 : x / 2 ^ 31 = 1) by lia. rewrite Hq1 in E. discriminate. }
    apply Z.div_small_iff in Hq0; [ | lia ].
    symmetry. apply Z.ltb_lt. lia.
Qed.

(** Enough fuel: the loop ends after [31 - log2 x] shifts. *)
Lemma count_zeros_loop_spec fuel x z :
  0 < x < 2 ^ 32 ->
  32 - Z.log2 x <= Z.of_nat fuel ->
  count_zeros_loop fuel x z = Some (z + (31 - Z.log2 x)).
Proof.
  revert x z. induction fuel as [|fuel IH]; intros x z Hx Hf.
  - assert (Z.log2 x < 32) by (apply Z.log2_lt_pow2; lia). lia.
  - cbn [count_zeros_loop]. rewrite top_bit_clear by lia.
    destruct (Z.ltb_spec x (2 ^ 31)) as [Hlt | Hge].
    + rewrite Z.shiftl_mul_pow2, Z.pow_1_r by lia.
      rewrite wrap32_small by lia.
      assert (Hl : Z.log2 (x * 2) = Z.log2 x + 1).
      { rewrite Z.mul_comm. apply Z.log2_double. lia. }
      rewrite IH by lia. f_equal. lia.
    + assert (Z.log2 x = 31).
      { apply Z.log2_unique; lia. }
      f_equal. lia.
Qed.

(** With any more fuel the result is the same. *)
Lemma count_zeros_loop_total x :
  0 < x < 2 ^ 32 ->
  forall fuel, (loop_fuel <= fuel)%nat ->
  count_zeros_loop fuel x 0 = Some (31 - Z.log2 x).
Proof.
  intros Hx fuel Hf. rewrite count_zeros_loop_spec; [ done | lia | ].
  assert (0 <= Z.log2 x) by apply Z.log2_nonneg. unfold loop_fuel in Hf. lia.
Qed.

(** On 0 the loop would never end: no fuel is enough. The guard of
    [count_zeros] keeps 0 out of it. *)
Lemma count_zeros_loop_zero fuel z : count_zeros_loop fuel 0 z = None.
Proof. revert z. induction fuel as [|fuel IH]; intros z; [ done | ]. cbn. apply IH. Qed.

Lemma leading_zeros_zero width top : leading_zeros width top 0 = Z.of_nat width.
Proof.
  revert top. induction width as [|k IH]; intros top; [ done | ].
  cbn [leading_zeros]. rewrite Z.bits_0, IH. lia.
Qed.

(** When the highest set bit of [w] lies in the window, the count stops
    at it. *)
Lemma leading_zeros_log2 width top w :
  0 < w -> Z.log2 w <= top -> top - Z.of_nat width < Z.log2 w ->
  leading_zeros width top w = top - Z.log2 w.
Proof.
  revert top. induction width as [|k IH]; intros top Hw Hle Hin; [ lia | ].
  cbn [leading_zeros].
  destruct (Z.eq_dec (Z.log2 w) top) as [<- | Hne].
  - rewrite Z.bit_log2 by lia. lia.
  - rewrite Z.bits_above_log2 by lia. rewrite IH by lia. lia.
Qed.

(** * Index and rank of a hash value *)

Lemma spec_index_range b h :
  1 <= b <= 16 -> 0 <= h < 2 ^ 32 -> 0 <= spec_index b h < 2 ^ b.
Proof.
  intros Hb Hh. unfold spec_index. rewrite Z.shiftr_div_pow2 by lia. split.
  - apply Z.div_pos; lia.
  - apply Z.div_lt_upper_bound; [ lia | ].
    rewrite <- Z.pow_add_r by lia. replace (32 - b + b) with 32 by lia. lia.
Qed.

Lemma spec_remainder_range b h : 0 <= spec_remainder b h < 2 ^ 32.
Proof. apply wrap32_range. Qed.

(** A remainder other than 0 has a set bit at position [b] or above. *)
Lemma spec_remainder_log2 b h :
  1 <= b <= 16 -> spec_remainder b h <> 0 ->
  b <= Z.log2 (spec_remainder b h) <= 31.
Proof.
  intros Hb Hne. pose proof (spec_remainder_range b h) as Hr.
  assert (Hdiv : spec_remainder b h mod 2 ^ b = 0).
  { unfold spec_remainder, wrap32. rewrite Z.shiftl_mul_pow2 by lia.
    rewrite Z.mod_mod_divide; [ apply Z.mod_mul; lia | ].
    exists (2 ^ (32 - b)). rewrite <- Z.pow_add_r by lia. f_equal. lia. }
  apply Z.mod_divide in Hdiv; [ | lia ]. destruct Hdiv as [k Hk].
  assert (0 < k) by nia.
  split.
  - apply Z.log2_le_pow2; [ lia | nia ].
  - assert (Z.log2 (spec_remainder b h) < 32) by (apply Z.log2_lt_pow2; lia). lia.
Qed.

(** What both classes' [count_zeros] return on the remainder. *)
Lemma count_zeros_remainder b h :
  1 <= b <= 16 ->
  (if spec_remainder b h =? 0 then Some (32 - b)
   else count_zeros_loop loop_fuel (spec_remainder b h) 0)
  = Some (spec_rank b h - 1).
Proof.
  intros Hb. unfold spec_rank. pose proof (spec_remainder_range b h) as Hr.
  destruct (Z.eqb_spec (spec_remainder b h) 0) as [H0 | Hne].
  - rewrite H0, leading_zeros_zero. f_equal. lia.
  - pose proof (spec_remainder_log2 b h Hb Hne) as Hl.
    rewrite count_zeros_loop_total by (lia || done).
    rewrite leading_zeros_log2 by lia. f_equal. lia.
Qed.

Lemma spec_rank_range b h : 1 <= b <= 16 -> 1 <= spec_rank b h <= 32 - b + 1.
Proof.
  intros Hb. unfold spec_rank. pose proof (spec_remainder_range b h) as Hr.
  destruct (Z.eq_dec (spec_remainder b h) 0) as [H0 | Hne].
  - rewrite H0, leading_zeros_zero. lia.
  - pose proof (spec_remainder_log2 b h Hb Hne) as Hl.
    rewrite leading_zeros_log2 by lia. lia.
Qed.

Lemma shifts_defined b h :
  1 <= b <= 16 -> 0 <= h < 2 ^ 32 ->
  shr32 h (32 - b) = Some (spec_index b h) /\
  shl32 h b = Some (spec_remainder b h) /\
  int_of_uint32 (spec_index b h) = spec_index b h.
Proof.
  intros Hb Hh. pose proof (spec_index_range b h Hb Hh) as Hi.
  unfold shr32, shl32, int_of_uint32.
  replace ((0 <=? 32 - b) && (32 - b <? 32)) with true
    by (symmetry; apply andb_true_iff; lia).
  replace ((0 <=? b) && (b <? 32)) with true by (symmetry; apply andb_true_iff; lia).
  assert (2 ^ b <= 2 ^ 16) by (apply Z.pow_le_mono_r; lia).
  replace (spec_index b h <? 2 ^ 31) with true by (symmetry; apply Z.ltb_lt; lia).
  done.
Qed.

Lemma HLL_index_and_rank st s :
  HLL.valid st ->
  HLL.index_and_rank st s =
    Some (spec_index (HLL.B st) (wrap32 (HLL.hash_func st s)),
          spec_rank (HLL.B st) (wrap32 (HLL.hash_func st s))).
Proof.
  intros (Hb & _). unfold HLL.index_and_rank, HLL.count_zeros.
  destruct (shifts_defined (HLL.B st) _ Hb (wrap32_range (HLL.hash_func st s)))
    as (Hr & Hl & Hi).
  rewrite Hr, Hl. cbn [mbind option_bind]. rewrite Hi.
  rewrite count_zeros_remainder by done. cbn [mbind option_bind].
  do 2 f_equal. lia.
Qed.

Lemma HLL_Improved_index_and_rank st s :
  HLL_Improved.valid st ->
  HLL_Improved.index_and_rank st s =
    Some (spec_index (HLL_Improved.B st) (wrap32 (HLL_Improved.hash_func st s)),
          spec_rank (HLL_Improved.B st) (wrap32 (HLL_Improved.hash_func st s))).
Proof.
  intros (Hb & _). unfold HLL_Improved.index_and_rank, HLL_Improved.count_zeros.
  destruct (shifts_defined (HLL_Improved.B st) _ Hb
              (wrap32_range (HLL_Improved.hash_func st s))) as (Hr & Hl & Hi).
  rewrite Hr, Hl. cbn [mbind option_bind]. rewrite Hi.
  rewrite count_zeros_remainder by done. cbn [mbind option_bind].
  do 2 f_equal. lia.
Qed.

(** * The register update of [add] *)

Lemma bitset5_small v : 0 <= v <= 31 -> bitset5 v = v.
Proof.
  intros Hv. unfold bitset5. change 31 with (Z.ones 5).
  rewrite Z.land_ones by lia. apply Z.mod_small. lia.
Qed.

Lemma clamp_range z : 1 <= z -> 1 <= HLL_Improved.clamp z <= 31.
Proof. intros Hz. unfold HLL_Improved.clamp. destruct (Z.gtb_spec z 31); lia. Qed.

Lemma clamp_min z : HLL_Improved.clamp z = Z.min z 31.
Proof. unfold HLL_Improved.clamp. destruct (Z.gtb_spec z 31); lia. Qed.

Section HLLAdd.
Variables (st : HLL.t) (s : string).
Hypothesis Hvalid : HLL.valid st.

Let h := wrap32 (HLL.hash_func st s).
Let idx := Z.to_nat (spec_index (HLL.B st) h).
Let rank := spec_rank (HLL.B st) h.

Lemma HLL_index_in_range : (idx < length (HLL.regs st))%nat.
Proof.
  destruct Hvalid as (Hb & Hm & Hlen).
  pose proof (spec_index_range (HLL.B st) h Hb (wrap32_range _)) as Hi.
  subst idx. rewrite Hlen, Hm. lia.
Qed.

(** [add] always returns, and writes [rank] at [idx] when it exceeds
    the register. *)
Lemma HLL_add_unfold :
  exists old,
    HLL.regs st !! idx = Some old /\
    HLL.add st s =
      Some (if rank >? old
            then HLL.mk (HLL.B st) (HLL.m st) (<[idx := rank]> (HLL.regs st))
                   (HLL.hash_func st)
            else st).
Proof.
  destruct (lookup_lt_is_Some_2 _ _ HLL_index_in_range) as [old Hold].
  exists old. split; [ done | ].
  unfold HLL.add. rewrite HLL_index_and_rank by done. cbn [mbind option_bind].
  destruct Hvalid as (Hb & _).
  pose proof (spec_index_range (HLL.B st) h Hb (wrap32_range _)) as Hi.
  fold h. replace (spec_index (HLL.B st) h <? 0) with false
    by (symmetry; apply Z.ltb_ge; lia).
  fold idx. rewrite Hold. cbn [mbind option_bind]. fold rank.
  now destruct (rank >? old).
Qed.

(** [registers[index] = max(registers[index], rank)] *)
Lemma HLL_add_max :
  exists old st',
    HLL.regs st !! idx = Some old /\ HLL.add st s = Some st' /\
    HLL.regs st' = <[idx := Z.max old rank]> (HLL.regs st) /\
    HLL.B st' = HLL.B st /\ HLL.m st' = HLL.m st /\
    HLL.hash_func st' = HLL.hash_func st.
Proof.
  destruct HLL_add_unfold as (old & Hold & Hadd). exists old.
  eexists. split; [ done | ]. split; [ exact Hadd | ].
  destruct (Z.gtb_spec rank old) as [Hgt | Hle]; cbn.
  - now rewrite Z.max_r by lia.
  - rewrite Z.max_l by lia. now rewrite list_insert_id.
Qed.
End HLLAdd.

Section ImprovedAdd.
Variables (st : HLL_Improved.t) (s : string).
Hypothesis Hvalid : HLL_Improved.valid st.

Let h := wrap32 (HLL_Improved.hash_func st s).
Let idx := Z.to_nat (spec_index (HLL_Improved.B st) h).
Let rank := HLL_Improved.clamp (spec_rank (HLL_Improved.B st) h).

Lemma HLL_Improved_index_in_range : (idx < length (HLL_Improved.regs st))%nat.
Proof.
  destruct Hvalid as (Hb & Hm & Hlen).
  pose proof (spec_index_range (HLL_Improved.B st) h Hb (wrap32_range _)) as Hi.
  subst idx. rewrite Hlen, Hm. lia.
Qed.

Lemma HLL_Improved_rank_range : 1 <= rank <= 31.
Proof.
  destruct Hvalid as (Hb & _). apply clamp_range.
  apply (spec_rank_range (HLL_Improved.B st) h Hb).
Qed.

Lemma HLL_Improved_add_unfold :
  exists old,
    HLL_Improved.regs st !! idx = Some old /\
    HLL_Improved.add st s =
      Some (if rank >? old
            then HLL_Improved.mk (HLL_Improved.B st) (HLL_Improved.m st)
                   (<[idx := rank]> (HLL_Improved.regs st))
                   (HLL_Improved.hash_func st)
            else st).
Proof.
  destruct (lookup_lt_is_Some_2 _ _ HLL_Improved_index_in_range) as [old Hold].
  exists old. split; [ done | ].
  unfold HLL_Improved.add. rewrite HLL_Improved_index_and_rank by done.
  cbn [mbind option_bind].
  destruct Hvalid as (Hb & _).
  pose proof (spec_index_range (HLL_Improved.B st) h Hb (wrap32_range _)) as Hi.
  fold h. replace (spec_index (HLL_Improved.B st) h <? 0) with false
    by (symmetry; apply Z.ltb_ge; lia).
  fold idx. rewrite Hold. cbn [mbind option_bind]. fold rank.
  rewrite (bitset5_small rank) by (pose proof HLL_Improved_rank_range; lia).
  now destruct (rank >? old).
Qed.

Lemma HLL_Improved_add_max :
  exists old st',
    HLL_Improved.regs st !! idx = Some old /\
    HLL_Improved.add st s = Some st' /\
    HLL_Improved.regs st' = <[idx := Z.max old rank]> (HLL_Improved.regs st) /\
    HLL_Improved.B st' = HLL_Improved.B st /\
    HLL_Improved.m st' = HLL_Improved.m st /\
    HLL_Improved.hash_func st' = HLL_Improved.hash_func st.
Proof.
  destruct HLL_Improved_add_unfold as (old & Hold & Hadd). exists old.
  eexists. split; [ done | ]. split; [ exact Hadd | ].
  destruct (Z.gtb_spec rank old) as [Hgt | Hle]; cbn.
  - now rewrite Z.max_r by lia.
  - rewrite Z.max_l by lia. now rewrite list_insert_id.
Qed.
End ImprovedAdd.

(** * Registers as a list: raising one entry *)

Lemma regs_le_refl rs : regs_le rs rs.
Proof. intros i r Hr. exists r. split; [ done | lia ]. Qed.

Lemma regs_le_trans rs1 rs2 rs3 :
  regs_le rs1 rs2 -> regs_le rs2 rs3 -> regs_le rs1 rs3.
Proof.
  intros H12 H23 i r Hr. destruct (H12 i r Hr) as (r2 & Hr2 & Hle2).
  destruct (H23 i r2 Hr2) as (r3 & Hr3 & Hle3). exists r3. split; [ done | lia ].
Qed.

Lemma regs_le_raise (rs : list Z) i old v :
  rs !! i = Some old -> regs_le rs (<[i := Z.max old v]> rs).
Proof.
  intros Hold j r Hr. destruct (decide (i = j)) as [<- | Hne].
  - exists (Z.max old v).
    rewrite list_lookup_insert_eq by (eapply lookup_lt_Some; eauto).
    split; [ done | ]. assert (r = old) by congruence. lia.
  - exists r. rewrite list_lookup_insert_ne by done. split; [ done | lia ].
Qed.

(** * [HLL]: invariants of [add] *)

Lemma HLL_add_total st s : HLL.valid st -> exists st', HLL.add st s = Some st'.
Proof.
  intros Hv. destruct (HLL_add_max st s Hv) as (old & st' & _ & Hadd & _). eauto.
Qed.

Lemma HLL_add_inv st s st' :
  HLL.valid st -> HLL.add st s = Some st' ->
  HLL.valid st' /\ HLL.B st' = HLL.B st /\ HLL.m st' = HLL.m st /\
  HLL.hash_func st' = HLL.hash_func st /\
  regs_le (HLL.regs st) (HLL.regs st').
Proof.
  intros Hv Hadd.
  destruct (HLL_add_max st s Hv) as (old & st1 & Hold & Hadd1 & Hregs & HB & Hm & Hh).
  assert (st1 = st') by congruence. subst st1.
  destruct Hv as (Hb & Hmv & Hlen). repeat split; try congruence; try lia.
  - rewrite Hregs, length_insert. congruence.
  - rewrite Hregs. now apply regs_le_raise.
Qed.

Lemma HLL_add_all_inv items : forall st,
  HLL.valid st ->
  exists st', HLL.add_all st items = Some st' /\
    HLL.valid st' /\ HLL.B st' = HLL.B st /\ HLL.m st' = HLL.m st /\
    HLL.hash_func st' = HLL.hash_func st /\
    regs_le (HLL.regs st) (HLL.regs st').
Proof.
  induction items as [|s items IH]; intros st Hv.
  - exists st. cbn. repeat split; try done; try apply Hv. apply regs_le_refl.
  - destruct (HLL_add_total st s Hv) as [st1 Hadd].
    destruct (HLL_add_inv st s st1 Hv Hadd) as (Hv1 & HB1 & Hm1 & Hh1 & Hle1).
    destruct (IH st1 Hv1) as (st' & Hall & Hv' & HB' & Hm' & Hh' & Hle').
    exists st'. cbn [HLL.add_all]. rewrite Hadd. cbn [mbind option_bind].
    repeat split; try congruence; try apply Hv'.
    eapply regs_le_trans; eauto.
Qed.

Lemma HLL_new_valid b h : 1 <= b <= 16 -> HLL.valid (HLL.new b h).
Proof.
  intros Hb. unfold HLL.valid, HLL.new, shl_int. cbn.
  rewrite Z.shiftl_1_l. repeat split; try lia. now rewrite length_replicate.
Qed.

Lemma HLL_clear_valid st : HLL.valid st -> HLL.valid (HLL.clear st).
Proof.
  intros (Hb & Hm & Hlen). unfold HLL.valid, HLL.clear. cbn.
  repeat split; try lia. now rewrite length_replicate.
Qed.

Lemma HLL_reachable_valid b h st :
  1 <= b <= 16 -> HLL.reachable b h st ->
  HLL.valid st /\ HLL.B st = b /\ HLL.hash_func st = h.
Proof.
  intros Hb Hr. induction Hr as [ | st s st' Hr IH Hadd | st Hr IH ].
  - split; [ now apply HLL_new_valid | done ].
  - destruct IH as (Hv & HB & Hh).
    destruct (HLL_add_inv st s st' Hv Hadd) as (Hv' & HB' & _ & Hh' & _).
    repeat split; try congruence; apply Hv'.
  - destruct IH as (Hv & HB & Hh). split; [ now apply HLL_clear_valid | done ].
Qed.

Lemma HLL_add_covers st s st' :
  HLL.valid st -> HLL.add st s = Some st' -> HLL_covers st' s.
Proof.
  intros Hv Hadd.
  destruct (HLL_add_max st s Hv) as (old & st1 & Hold & Hadd1 & Hregs & HB & Hm & Hh).
  assert (st1 = st') by congruence. subst st1.
  unfold HLL_covers. rewrite HB, Hh, Hregs. eexists. split.
  - apply list_lookup_insert_eq. eapply lookup_lt_Some; eauto.
  - lia.
Qed.

Lemma HLL_covers_mono st st' s :
  HLL.B st' = HLL.B st -> HLL.hash_func st' = HLL.hash_func st ->
  regs_le (HLL.regs st) (HLL.regs st') ->
  HLL_covers st s -> HLL_covers st' s.
Proof.
  intros HB Hh Hle (r & Hr & Hrank). unfold HLL_covers. rewrite HB, Hh.
  destruct (Hle _ _ Hr) as (r' & Hr' & Hrr). exists r'. split; [ done | lia ].
Qed.

(** Adding an item whose register already covers it changes nothing. *)
Lemma HLL_covers_add st s : HLL.valid st -> HLL_covers st s -> HLL.add st s = Some st.
Proof.
  intros Hv (r & Hr & Hrank).
  destruct (HLL_add_unfold st s Hv) as (old & Hold & Hadd).
  assert (old = r) by congruence. subst old. rewrite Hadd.
  destruct (Z.gtb_spec (spec_rank (HLL.B st) (wrap32 (HLL.hash_func st s))) r);
    [ lia | done ].
Qed.

Lemma HLL_add_all_covers items : forall st st' s,
  HLL.valid st -> HLL.add_all st items = Some st' ->
  HLL_covers st s \/ In s items -> HLL_covers st' s.
Proof.
  induction items as [|x items IH]; intros st st' s Hv Hall Hs.
  - cbn in Hall. destruct Hs as [Hc | []]. congruence.
  - cbn [HLL.add_all] in Hall. destruct (HLL.add st x) as [st1|] eqn:Hadd; [ | done ].
    cbn [mbind option_bind] in Hall.
    destruct (HLL_add_inv st x st1 Hv Hadd) as (Hv1 & HB1 & _ & Hh1 & Hle1).
    apply (IH st1 st' s Hv1 Hall).
    destruct Hs as [Hc | [-> | Hin]].
    + left. exact (HLL_covers_mono st st1 s HB1 Hh1 Hle1 Hc).
    + left. exact (HLL_add_covers st s st1 Hv Hadd).
    + now right.
Qed.

(** * [HLL_Improved]: invariants of [add] *)

Lemma HLL_Improved_add_total st s : HLL_Improved.valid st ->
  exists st', HLL_Improved.add st s = Some st'.
Proof.
  intros Hv. destruct (HLL_Improved_add_max st s Hv) as (old & st' & _ & Hadd & _).
  eauto.
Qed.

Lemma HLL_Improved_add_inv st s st' :
  HLL_Improved.valid st -> HLL_Improved.add st s = Some st' ->
  HLL_Improved.valid st' /\ HLL_Improved.B st' = HLL_Improved.B st /\
  HLL_Improved.m st' = HLL_Improved.m st /\
  HLL_Improved.hash_func st' = HLL_Improved.hash_func st /\
  regs_le (HLL_Improved.regs st) (HLL_Improved.regs st').
Proof.
  intros Hv Hadd.
  destruct (HLL_Improved_add_max st s Hv)
    as (old & st1 & Hold & Hadd1 & Hregs & HB & Hm & Hh).
  assert (st1 = st') by congruence. subst st1.
  destruct Hv as (Hb & Hmv & Hlen). repeat split; try congruence; try lia.
  - rewrite Hregs, length_insert. congruence.
  - rewrite Hregs. now apply regs_le_raise.
Qed.

Lemma HLL_Improved_add_all_inv items : forall st,
  HLL_Improved.valid st ->
  exists st', HLL_Improved.add_all st items = Some st' /\
    HLL_Improved.valid st' /\ HLL_Improved.B st' = HLL_Improved.B st /\
    HLL_Improved.m st' = HLL_Improved.m st /\
    HLL_Improved.hash_func st' = HLL_Improved.hash_func st /\
    regs_le (HLL_Improved.regs st) (HLL_Improved.regs st').
Proof.
  induction items as [|s items IH]; intros st Hv.
  - exists st. cbn. repeat split; try done; try apply Hv. apply regs_le_refl.
  - destruct (HLL_Improved_add_total st s Hv) as [st1 Hadd].
    destruct (HLL_Improved_add_inv st s st1 Hv Hadd) as (Hv1 & HB1 & Hm1 & Hh1 & Hle1).
    destruct (IH st1 Hv1) as (st' & Hall & Hv' & HB' & Hm' & Hh' & Hle').
    exists st'. cbn [HLL_Improved.add_all]. rewrite Hadd. cbn [mbind option_bind].
    repeat split; try congruence; try apply Hv'.
    eapply regs_le_trans; eauto.
Qed.

Lemma HLL_Improved_new_valid b h : 1 <= b <= 16 ->
  HLL_Improved.valid (HLL_Improved.new b h).
Proof.
  intros Hb. unfold HLL_Improved.valid, HLL_Improved.new, shl_int. cbn.
  rewrite Z.shiftl_1_l. repeat split; try lia. now rewrite length_replicate.
Qed.

Lemma HLL_Improved_reachable_valid b h st :
  1 <= b <= 16 -> HLL_Improved.reachable b h st ->
  HLL_Improved.valid st /\ HLL_Improved.B st = b /\ HLL_Improved.hash_func st = h.
Proof.
  intros Hb Hr. induction Hr as [ | st s st' Hr IH Hadd ].
  - split; [ now apply HLL_Improved_new_valid | done ].
  - destruct IH as (Hv & HB & Hh).
    destruct (HLL_Improved_add_inv st s st' Hv Hadd) as (Hv' & HB' & _ & Hh' & _).
    repeat split; try congruence; apply Hv'.
Qed.

Lemma HLL_Improved_add_covers st s st' :
  HLL_Improved.valid st -> HLL_Improved.add st s = Some st' ->
    HLL_Improved_covers st' s.
Proof.
  intros Hv Hadd.
  destruct (HLL_Improved_add_max st s Hv)
    as (old & st1 & Hold & Hadd1 & Hregs & HB & Hm & Hh).
  assert (st1 = st') by congruence. subst st1.
  unfold HLL_Improved_covers. rewrite HB, Hh, Hregs. eexists. split.
  - apply list_lookup_insert_eq. eapply lookup_lt_Some; eauto.
  - lia.
Qed.

Lemma HLL_Improved_covers_mono st st' s :
  HLL_Improved.B st' = HLL_Improved.B st ->
    HLL_Improved.hash_func st' = HLL_Improved.hash_func st ->
  regs_le (HLL_Improved.regs st) (HLL_Improved.regs st') ->
  HLL_Improved_covers st s -> HLL_Improved_covers st' s.
Proof.
  intros HB Hh Hle (r & Hr & Hrank). unfold HLL_Improved_covers. rewrite HB, Hh.
  destruct (Hle _ _ Hr) as (r' & Hr' & Hrr). exists r'. split; [ done | lia ].
Qed.

(** Adding an item whose register already covers it changes nothing. *)
Lemma HLL_Improved_covers_add st s : HLL_Improved.valid st ->
  HLL_Improved_covers st s -> HLL_Improved.add st s = Some st.
Proof.
  intros Hv (r & Hr & Hrank).
  destruct (HLL_Improved_add_unfold st s Hv) as (old & Hold & Hadd).
  assert (old = r) by congruence. subst old. rewrite Hadd.
  set (rank := HLL_Improved.clamp _) in *.
  destruct (Z.gtb_spec rank r); [ lia | done ].
Qed.

Lemma HLL_Improved_add_all_covers items : forall st st' s,
  HLL_Improved.valid st -> HLL_Improved.add_all st items = Some st' ->
  HLL_Improved_covers st s \/ In s items -> HLL_Improved_covers st' s.
Proof.
  induction items as [|x items IH]; intros st st' s Hv Hall Hs.
  - cbn in Hall. destruct Hs as [Hc | []]. congruence.
  - cbn [HLL_Improved.add_all] in Hall.
    destruct (HLL_Improved.add st x) as [st1|] eqn:Hadd; [ | done ].
    cbn [mbind option_bind] in Hall.
    destruct (HLL_Improved_add_inv st x st1 Hv Hadd) as (Hv1 & HB1 & _ & Hh1 & Hle1).
    apply (IH st1 st' s Hv1 Hall).
    destruct Hs as [Hc | [-> | Hin]].
    + left. exact (HLL_Improved_covers_mono st st1 s HB1 Hh1 Hle1 Hc).
    + left. exact (HLL_Improved_add_covers st s st1 Hv Hadd).
    + now right.
Qed.

(** * Sums of positive doubles

    Facts about binary64 addition read off its specification
    ([SpecFloat]): adding a positive finite double to a sum that is zero,
    positive or [+infinity] gives a positive double or [+infinity]. *)

Lemma digits2_pos_le p : 2 ^ (Z.pos (digits2_pos p) - 1) <= Z.pos p.
Proof.
  induction p as [p IH | p IH | ]; cbn [digits2_pos]; [ | | cbn; lia ].
  all: rewrite Pos2Z.inj_succ;
    replace (Z.succ (Z.pos (digits2_pos p)) - 1)
      with (Z.succ (Z.pos (digits2_pos p) - 1)) by lia;
    rewrite Z.pow_succ_r by lia; lia.
Qed.

Lemma shr_1_m mrs : 0 <= shr_m mrs -> shr_m (shr_1 mrs) = shr_m mrs / 2.
Proof.
  destruct mrs as [m r s]. cbn [shr_m]. intros Hm.
  destruct m as [ | [p | p | ] | p ]; cbn [shr_1 shr_m]; try lia;
    rewrite <- Z.div2_div; reflexivity.
Qed.

Lemma iter_shr_1_m p : forall mrs,
  0 <= shr_m mrs -> shr_m (SpecFloat.iter_pos shr_1 p mrs) = shr_m mrs / 2 ^ Z.pos p.
Proof.
  assert (Hdiv : forall a k, 0 <= a -> 0 <= a / 2 ^ Z.pos k)
    by (intros; apply Z.div_pos; lia).
  induction p as [p IH | p IH | ]; intros mrs Hm; cbn [SpecFloat.iter_pos].
  - assert (H1 : 0 <= shr_m (shr_1 mrs))
      by (rewrite shr_1_m by lia; apply Z.div_pos; lia).
    assert (H2 : 0 <= shr_m (SpecFloat.iter_pos shr_1 p (shr_1 mrs)))
      by (rewrite IH by lia; now apply Hdiv).
    rewrite IH, IH, shr_1_m by lia.
    rewrite !Z.div_div by lia. f_equal.
    replace (Z.pos p~1) with (1 + Z.pos p + Z.pos p) by lia.
    rewrite !Z.pow_add_r by lia. lia.
  - assert (H2 : 0 <= shr_m (SpecFloat.iter_pos shr_1 p mrs))
      by (rewrite IH by lia; now apply Hdiv).
    rewrite IH, IH by lia.
    rewrite !Z.div_div by lia. f_equal.
    replace (Z.pos p~0) with (Z.pos p + Z.pos p) by lia.
    rewrite !Z.pow_add_r by lia. lia.
  - rewrite shr_1_m by lia. now rewrite Z.pow_1_r.
Qed.

Lemma shr_record_of_loc_m m l : shr_m (shr_record_of_loc m l) = m.
Proof. destruct l as [ | [ | | ] ]; reflexivity. Qed.

(** Above the least exponent, the rounding shift keeps a positive
    mantissa positive. *)
Lemma shr_fexp_pos m e l :
  0 < m -> emin <= e ->
  0 < shr_m (fst (shr_fexp prec emax m e l)) /\
  emin <= snd (shr_fexp prec emax m e l).
Proof.
  intros Hm He. unfold shr_fexp, shr.
  destruct m as [ | p | p ]; try lia. cbn [Zdigits2].
  pose proof (digits2_pos_le p) as Hd.
  set (d := Z.pos (digits2_pos p)) in *.
  assert (Hfexp : fexp prec emax (d + e) - e <= Z.max (d - 53) 0).
  { unfold fexp, SpecFloat.emin, prec, emax in *. lia. }
  destruct (fexp prec emax (d + e) - e) as [ | n | n ] eqn:En; cbn [fst snd].
  - rewrite shr_record_of_loc_m. lia.
  - rewrite iter_shr_1_m by (rewrite shr_record_of_loc_m; lia).
    rewrite shr_record_of_loc_m. split; [ | lia ].
    apply Z.div_str_pos. split; [ lia | ].
    transitivity (2 ^ (d - 1)); [ apply Z.pow_le_mono_r; lia | lia ].
  - rewrite shr_record_of_loc_m. lia.
Qed.

Lemma round_nearest_even_pos m l : 0 < m -> 0 < round_nearest_even m l.
Proof.
  intros Hm. destruct l as [ | [ | | ] ]; cbn [round_nearest_even]; try lia.
  destruct (Z.even m); lia.
Qed.

Lemma binary_round_aux_pos m e l :
  0 < m -> emin <= e ->
  sf_pos (binary_round_aux prec emax false m e l) = true.
Proof.
  intros Hm He. unfold binary_round_aux.
  destruct (shr_fexp_pos m e l Hm He) as [H1 H1e].
  destruct (shr_fexp prec emax m e l) as [mrs' e'] eqn:E1. cbn [fst snd] in H1, H1e.
  pose proof (round_nearest_even_pos (shr_m mrs') (loc_of_shr_record mrs') H1) as H2.
  destruct (shr_fexp_pos _ e' loc_Exact H2 H1e) as [H3 _].
  destruct (shr_fexp prec emax _ e' loc_Exact) as [mrs'' e''] eqn:E2. cbn [fst] in H3.
  destruct (shr_m mrs'') as [ | q | q ]; try lia.
  now destruct (e'' <=? emax - prec).
Qed.

Lemma binary_round_pos p e :
  emin <= e -> sf_pos (binary_round prec emax false p e) = true.
Proof.
  intros He. unfold binary_round, shl_align.
  assert (Hf : emin <= fexp prec emax (Z.pos (digits2_pos p) + e)).
  { unfold fexp, SpecFloat.emin. lia. }
  destruct (fexp prec emax (Z.pos (digits2_pos p) + e) - e) eqn:En;
    apply binary_round_aux_pos; lia.
Qed.

(** The exponent of a finite double is at least the least exponent. *)
Lemma valid_exponent s m e :
  valid_binary (S754_finite s m e) = true -> emin <= e.
Proof.
  cbn [valid_binary]. unfold bounded, canonical_mantissa. intros Hb.
  apply andb_true_iff in Hb. destruct Hb as [Hc _]. apply Z.eqb_eq in Hc.
  unfold fexp, SpecFloat.emin in *. lia.
Qed.

Lemma SFadd_pos x y :
  valid_binary x = true -> valid_binary y = true ->
  sf_zero x || sf_pos x = true -> sf_pos_finite y = true ->
  sf_pos (SFadd prec emax x y) = true.
Proof.
  intros Vx Vy Hx Hy.
  destruct y as [ | | | [ | ] my ey ]; try discriminate.
  destruct x as [ sx | [ | ] | | [ | ] mx ex ]; try discriminate; try reflexivity.
  cbn [SFadd cond_Zopp].
  apply valid_exponent in Vx, Vy.
  cbn [Z.add binary_normalize]. apply binary_round_pos. lia.
Qed.

Lemma add_pos x y :
  pos_or_zero x = true -> pos_finite y = true -> sf_pos (Prim2SF (x + y)) = true.
Proof.
  intros Hx Hy. rewrite add_spec.
  apply SFadd_pos; auto using Prim2SF_valid.
Qed.

Lemma pos_ltb x : sf_pos (Prim2SF x) = true -> (0 <? x)%float = true.
Proof.
  intros Hx. rewrite ltb_spec. change (Prim2SF 0) with (S754_zero false).
  unfold SFltb.
  destruct (Prim2SF x) as [ | [ | ] | | [ | ] mx ex ]; try discriminate; reflexivity.
Qed.

(** * The loop of [estimate] *)

(** A check on every shift count of [unsigned long long]. *)
Lemma all_counts (P : Z -> bool) :
  forallb (fun n => P (Z.of_nat n)) (seq 0 64) = true ->
  forall r, 0 <= r <= 63 -> P r = true.
Proof.
  intros Hall r Hr. rewrite forallb_forall in Hall.
  rewrite <- (Z2Nat.id r) by lia. apply Hall. apply in_seq. lia.
Qed.

Lemma reg_term_pos_finite r : 0 <= r <= 63 -> pos_finite (reg_term r) = true.
Proof. revert r. apply all_counts. vm_compute. reflexivity. Qed.

(** [1.0 / (1ULL << r)] is [2^(-r)], exactly. *)
Lemma reg_term_pow2 r : 0 <= r <= 63 -> reg_term r = pow2_neg r.
Proof.
  intros Hr. apply Leibniz.eqb_spec. revert r Hr.
  apply (all_counts (fun r => Leibniz.eqb (reg_term r) (pow2_neg r))).
  vm_compute. reflexivity.
Qed.

Lemma reg_term_bounds r :
  0 <= r <= 63 -> (0 <? reg_term r)%float = true /\ (reg_term r <=? 1)%float = true.
Proof.
  intros Hr. split; revert r Hr.
  - apply (all_counts (fun r => (0 <? reg_term r)%float)). vm_compute. reflexivity.
  - apply (all_counts (fun r => (reg_term r <=? 1)%float)). vm_compute. reflexivity.
Qed.

(** The two components of the loop, apart. *)
Lemma estimate_loop_from rs : forall a z,
  fold_left estimate_step rs (a, z) =
    (fold_left (fun acc r => (acc + reg_term r)%float) rs a, z + zeroCount rs).
Proof.
  induction rs as [|r rs IH]; intros a z; cbn [fold_left].
  - unfold zeroCount. cbn. f_equal. lia.
  - unfold estimate_step at 2. rewrite IH. f_equal.
    unfold zeroCount.
    destruct (Z.eqb_spec r 0) as [-> | Hne].
    + rewrite filter_cons_True by done. cbn [length]. lia.
    + rewrite filter_cons_False by done. lia.
Qed.

Lemma estimate_loop_spec rs :
  Forall (fun r => 0 <= r <= 63) rs ->
  estimate_loop rs = (Z_sum rs, zeroCount rs).
Proof.
  intros Hrs. unfold estimate_loop. rewrite estimate_loop_from. f_equal.
  unfold Z_sum. generalize 0%float. induction Hrs as [|r rs Hr Hrs IH]; intros a.
  - reflexivity.
  - cbn [fold_left]. rewrite reg_term_pow2 by done. apply IH.
Qed.

Lemma sum_stays_pos rs : forall a,
  Forall (fun r => 0 <= r <= 63) rs ->
  sf_pos (Prim2SF a) = true ->
  sf_pos (Prim2SF (fold_left (fun acc r => (acc + reg_term r)%float) rs a)) = true.
Proof.
  induction rs as [|r rs IH]; intros a Hrs Ha; [ done | ].
  apply Forall_cons in Hrs. destruct Hrs as [Hr Hrs]. cbn [fold_left].
  apply IH; [ done | ]. apply add_pos.
  - unfold pos_or_zero. rewrite Ha. apply orb_true_r.
  - now apply reg_term_pos_finite.
Qed.

(** Over at least one register, [sum] ends positive. *)
Lemma estimate_loop_pos rs :
  rs <> [] -> Forall (fun r => 0 <= r <= 63) rs ->
  (0 <? fst (estimate_loop rs))%float = true.
Proof.
  intros Hne Hrs. unfold estimate_loop. rewrite estimate_loop_from. cbn [fst].
  destruct rs as [|r rs]; [ done | ].
  apply Forall_cons in Hrs. destruct Hrs as [Hr Hrs]. cbn [fold_left].
  apply pos_ltb, sum_stays_pos; [ done | ].
  apply add_pos; [ reflexivity | now apply reg_term_pos_finite ].
Qed.

(** A check on every precision of the data model. *)
Lemma all_precisions (P : Z -> Prop) :
  P 1 -> P 2 -> P 3 -> P 4 -> P 5 -> P 6 -> P 7 -> P 8 ->
  P 9 -> P 10 -> P 11 -> P 12 -> P 13 -> P 14 -> P 15 -> P 16 ->
  forall b, 1 <= b <= 16 -> P b.
Proof.
  intros P1 P2 P3 P4 P5 P6 P7 P8 P9 P10 P11 P12 P13 P14 P15 P16 b Hb.
  assert (Hcases :
    b = 1 \/ b = 2 \/ b = 3 \/ b = 4 \/ b = 5 \/ b = 6 \/ b = 7 \/ b = 8 \/
    b = 9 \/ b = 10 \/ b = 11 \/ b = 12 \/ b = 13 \/ b = 14 \/ b = 15 \/ b = 16)
    by lia.
  repeat (destruct Hcases as [-> | Hcases]; [ assumption | ]). now subst b.
Qed.

(** The loop over [2^b] registers that are all 0. *)
Lemma estimate_loop_zeros b :
  1 <= b <= 16 ->
  estimate_loop (replicate (Z.to_nat (2 ^ b)) 0) = (double_of_Z (2 ^ b), 2 ^ b).
Proof.
  revert b. apply all_precisions; vm_compute; reflexivity.
Qed.

(** [0.7213 * m * m] is [0.7213 * m^2]: scaling by a power of two is
    exact. *)
Lemma alpha_m_m b :
  1 <= b <= 16 ->
  (0.7213 * double_of_Z (2 ^ b) * double_of_Z (2 ^ b))%float
  = (0.7213 * double_of_Z (2 ^ b * 2 ^ b))%float.
Proof.
  revert b. apply all_precisions; vm_compute; reflexivity.
Qed.

(** On all-zero registers the raw estimate is under the threshold and
    [m / zero_regs] is 1. *)
Lemma zeros_small_range b :
  1 <= b <= 16 ->
  let fm := double_of_Z (2 ^ b) in
  (0.7213 * fm * fm / fm <=? 2.5 * fm)%float = true /\
  (fm / fm)%float = 1%float /\ (fm * 0)%float = 0%float.
Proof.
  revert b. apply all_precisions; vm_compute; auto.
Qed.

(** * The two stores side by side *)

Lemma same_fields_valid s1 s2 :
  same_fields s1 s2 -> HLL.valid s1 -> HLL_Improved.valid s2.
Proof.
  intros (HB & Hm & Hr & _) (Hb & Hmv & Hlen). unfold HLL_Improved.valid.
  rewrite <- HB, <- Hm, <- Hr. done.
Qed.

Lemma same_fields_new b h : same_fields (HLL.new b h) (HLL_Improved.new b h).
Proof. repeat split. Qed.

(** From precision 2 on, the clamp of [HLL_Improved::add] never fires. *)
Lemma clamp_idle b h : 2 <= b <= 16 ->
  HLL_Improved.clamp (spec_rank b h) = spec_rank b h.
Proof.
  intros Hb. rewrite clamp_min.
  assert (1 <= spec_rank b h <= 32 - b + 1) by (apply spec_rank_range; lia). lia.
Qed.

Lemma same_fields_add s1 s2 s :
  same_fields s1 s2 -> HLL.valid s1 -> 2 <= HLL.B s1 ->
  exists s1' s2',
    HLL.add s1 s = Some s1' /\ HLL_Improved.add s2 s = Some s2' /\
    same_fields s1' s2'.
Proof.
  intros Hsame Hv Hb2. pose proof (same_fields_valid s1 s2 Hsame Hv) as Hv2.
  destruct Hsame as (HB & Hm & Hr & Hh).
  destruct (HLL_add_unfold s1 s Hv) as (old & Hold & Hadd).
  destruct (HLL_Improved_add_unfold s2 s Hv2) as (old2 & Hold2 & Hadd2).
  rewrite <- HB, <- Hh, <- Hr, <- Hm in *.
  rewrite clamp_idle in * by (destruct Hv; lia).
  assert (old2 = old) by congruence. subst old2.
  eexists. eexists. split; [ exact Hadd | ]. split; [ exact Hadd2 | ].
  destruct (_ >? old); repeat split; cbn; congruence.
Qed.

Lemma same_fields_add_all items : forall s1 s2,
  same_fields s1 s2 -> HLL.valid s1 -> 2 <= HLL.B s1 ->
  exists s1' s2',
    HLL.add_all s1 items = Some s1' /\ HLL_Improved.add_all s2 items = Some s2' /\
    same_fields s1' s2'.
Proof.
  induction items as [|s items IH]; intros s1 s2 Hsame Hv Hb2.
  - exists s1, s2. done.
  - destruct (same_fields_add s1 s2 s Hsame Hv Hb2) as (t1 & t2 & Ha1 & Ha2 & Hsame').
    destruct (HLL_add_inv s1 s t1 Hv Ha1) as (Hv' & HB' & _).
    destruct (IH t1 t2 Hsame' Hv') as (s1' & s2' & H1 & H2 & Hs); [ lia | ].
    exists s1', s2'. cbn [HLL.add_all HLL_Improved.add_all].
    rewrite Ha1, Ha2. done.
Qed.

(** [estimate] reads the registers and [m] alike in the two classes. *)
Lemma same_fields_estimate log s1 s2 :
  same_fields s1 s2 -> HLL.estimate log s1 = HLL_Improved.estimate log s2.
Proof.
  intros (_ & Hm & Hr & _). unfold HLL.estimate, HLL_Improved.estimate.
  now rewrite Hm, Hr.
Qed.

(** * Ranges of the registers *)

Lemma HLL_add_range st s st' :
  HLL.valid st -> HLL.add st s = Some st' ->
  Forall (fun r => 0 <= r <= 33 - HLL.B st) (HLL.regs st) ->
  Forall (fun r => 0 <= r <= 33 - HLL.B st) (HLL.regs st').
Proof.
  intros Hv Hadd Hrs.
  destruct (HLL_add_max st s Hv) as (old & st1 & Hold & Hadd1 & Hregs & _).
  assert (st1 = st') by congruence. subst st1. rewrite Hregs.
  apply Forall_insert; [ done | ].
  pose proof (Forall_lookup_1 _ _ _ _ Hrs Hold) as Ho. cbn beta in Ho.
  destruct Hv as (Hb & _).
  pose proof (spec_rank_range (HLL.B st) (wrap32 (HLL.hash_func st s)) Hb). lia.
Qed.

Lemma HLL_reachable_range b h st :
  1 <= b <= 16 -> HLL.reachable b h st ->
  Forall (fun r => 0 <= r <= 33 - b) (HLL.regs st).
Proof.
  intros Hb Hr. induction Hr as [ | st s st' Hr IH Hadd | st Hr IH ].
  - apply Forall_replicate. lia.
  - destruct (HLL_reachable_valid b h st Hb Hr) as (Hv & HB & _).
    rewrite <- HB in *. now apply (HLL_add_range st s st').
  - apply Forall_replicate. lia.
Qed.

Lemma HLL_Improved_add_range st s st' :
  HLL_Improved.valid st -> HLL_Improved.add st s = Some st' ->
  Forall (fun r => 0 <= r <= 31) (HLL_Improved.regs st) ->
  Forall (fun r => 0 <= r <= 31) (HLL_Improved.regs st').
Proof.
  intros Hv Hadd Hrs.
  destruct (HLL_Improved_add_max st s Hv) as (old & st1 & Hold & Hadd1 & Hregs & _).
  assert (st1 = st') by congruence. subst st1. rewrite Hregs.
  apply Forall_insert; [ done | ].
  pose proof (Forall_lookup_1 _ _ _ _ Hrs Hold) as Ho. cbn beta in Ho.
  pose proof (HLL_Improved_rank_range st s Hv). lia.
Qed.

Lemma HLL_Improved_reachable_range b h st :
  1 <= b <= 16 -> HLL_Improved.reachable b h st ->
  Forall (fun r => 0 <= r <= 31) (HLL_Improved.regs st).
Proof.
  intros Hb Hr. induction Hr as [ | st s st' Hr IH Hadd ].
  - apply Forall_replicate. change (bitset5 0) with 0. lia.
  - destruct (HLL_Improved_reachable_valid b h st Hb Hr) as (Hv & _).
    now apply (HLL_Improved_add_range st s st').
Qed.

Lemma valid_regs_nonempty (rs : list Z) m b :
  1 <= b <= 16 -> m = 2 ^ b -> length rs = Z.to_nat m -> rs <> [].
Proof.
  intros Hb -> Hlen ->. cbn in Hlen.
  assert (0 < 2 ^ b) by (apply Z.pow_pos_nonneg; lia). lia.
Qed.

(** * Calls of a driver *)

(** The loop of [estimate] on the object: every turn reads one element
    and leaves the object as it found it, so the loop ends on the object
    it began with, with the locals of [estimate_loop]. *)
Lemma range_for_reads {Obj : Type} (regs_of : Obj -> list Z)
    (read : nat -> method Obj Z) :
  (forall i self, read i self = (r ← regs_of self !! i; Some (r, self))) ->
  forall count i acc self,
    (i + count)%nat = length (regs_of self) ->
    range_for (fun i acc => r ← read i; mret (estimate_step acc r)) count i acc self
    = Some (fold_left estimate_step (drop i (regs_of self)) acc, self).
Proof.
  intros Hread. induction count as [|count IH]; intros i acc self Hlen.
  - rewrite drop_ge by lia. reflexivity.
  - destruct (lookup_lt_is_Some_2 (regs_of self) i ltac:(lia)) as [r Hr].
    rewrite (drop_S _ _ _ Hr). cbn [range_for fold_left].
    unfold mbind at 1, method_bind at 1. unfold mbind at 1, method_bind at 1.
    rewrite Hread, Hr. cbn [mbind option_bind]. unfold mret, method_ret.
    apply IH. lia.
Qed.

(** A call of [HLL::estimate] returns what [HLL.estimate] computes from
    the registers and [m], and leaves the object as it was. *)
Lemma HLL_estimate_call log st :
  HLL.estimate_call log st = Some (HLL.estimate log st, st).
Proof.
  unfold HLL.estimate_call, HLL.estimate, estimate_loop.
  unfold mbind at 1, method_bind at 1. unfold HLL.regs_size at 1.
  unfold mbind at 1, method_bind at 1.
  rewrite (range_for_reads HLL.regs HLL.read_reg) by done.
  rewrite drop_0.
  destruct (fold_left estimate_step (HLL.regs st) (0%float, 0)) as [sum zero_regs].
  unfold mbind, method_bind, HLL.read_m, mret, method_ret.
  now destruct (_ && _).
Qed.

Lemma HLL_Improved_estimate_call log st :
  HLL_Improved.estimate_call log st = Some (HLL_Improved.estimate log st, st).
Proof.
  unfold HLL_Improved.estimate_call, HLL_Improved.estimate, estimate_loop.
  unfold mbind at 1, method_bind at 1. unfold HLL_Improved.regs_size at 1.
  unfold mbind at 1, method_bind at 1.
  rewrite (range_for_reads HLL_Improved.regs HLL_Improved.read_reg) by done.
  rewrite drop_0.
  destruct (fold_left estimate_step (HLL_Improved.regs st) (0%float, 0))
    as [sum zero_regs].
  unfold mbind, method_bind, HLL_Improved.read_m, mret, method_ret.
  now destruct (_ && _).
Qed.

Lemma HLL_run_app log cs1 : forall cs2 st,
  HLL.run log st (cs1 ++ cs2) =
    '(s1, o1) ← HLL.run log st cs1;
    '(s2, o2) ← HLL.run log s1 cs2;
    Some (s2, o1 ++ o2).
Proof.
  induction cs1 as [|c cs1 IH]; intros cs2 st.
  - cbn. destruct (HLL.run log st cs2) as [[s2 o2]|]; reflexivity.
  - cbn [app HLL.run]. destruct (HLL.step log st c) as [[s0 o0]|]; [ | reflexivity ].
    cbn [mbind option_bind]. rewrite IH.
    destruct (HLL.run log s0 cs1) as [[s1 o1]|]; [ | reflexivity ].
    cbn [mbind option_bind].
    destruct (HLL.run log s1 cs2) as [[s2 o2]|]; [ | reflexivity ].
    cbn [mbind option_bind]. now rewrite app_assoc.
Qed.

Lemma HLL_run_strip log cs : forall st,
  fst <$> HLL.run log st (filter (fun c => HLL.is_estimate c = false) cs)
  = fst <$> HLL.run log st cs.
Proof.
  induction cs as [|c cs IH]; intros st; [ reflexivity | ].
  destruct c as [s | | ].
  - rewrite filter_cons_True by done. cbn [HLL.run HLL.step].
    destruct (HLL.add st s) as [st1|]; [ | reflexivity ]. cbn [mbind option_bind].
    specialize (IH st1).
    destruct (HLL.run log st1 cs) as [[s2 o2]|], (HLL.run log st1 (filter _ cs))
      as [[s3 o3]|];
      cbn in *; congruence.
  - rewrite filter_cons_False by done. rewrite IH.
    cbn [HLL.run HLL.step]. rewrite HLL_estimate_call. cbn [mbind option_bind].
    destruct (HLL.run log st cs) as [[s2 o2]|]; reflexivity.
  - rewrite filter_cons_True by done. cbn [HLL.run HLL.step mbind option_bind].
    specialize (IH (HLL.clear st)).
    destruct (HLL.run log (HLL.clear st) cs)
      as [[s2 o2]|], (HLL.run log (HLL.clear st) (filter _ cs)) as [[s3 o3]|];
      cbn in *; congruence.
Qed.

Lemma HLL_Improved_run_app log cs1 : forall cs2 st,
  HLL_Improved.run log st (cs1 ++ cs2) =
    '(s1, o1) ← HLL_Improved.run log st cs1;
    '(s2, o2) ← HLL_Improved.run log s1 cs2;
    Some (s2, o1 ++ o2).
Proof.
  induction cs1 as [|c cs1 IH]; intros cs2 st.
  - cbn. destruct (HLL_Improved.run log st cs2) as [[s2 o2]|]; reflexivity.
  - cbn [app HLL_Improved.run].
    destruct (HLL_Improved.step log st c) as [[s0 o0]|]; [ | reflexivity ].
    cbn [mbind option_bind]. rewrite IH.
    destruct (HLL_Improved.run log s0 cs1) as [[s1 o1]|]; [ | reflexivity ].
    cbn [mbind option_bind].
    destruct (HLL_Improved.run log s1 cs2) as [[s2 o2]|]; [ | reflexivity ].
    cbn [mbind option_bind]. now rewrite app_assoc.
Qed.

Lemma HLL_Improved_run_strip log cs : forall st,
  fst <$> HLL_Improved.run log st
      (filter (fun c => HLL_Improved.is_estimate c = false) cs)
  = fst <$> HLL_Improved.run log st cs.
Proof.
  induction cs as [|c cs IH]; intros st; [ reflexivity | ].
  destruct c as [s | ].
  - rewrite filter_cons_True by done. cbn [HLL_Improved.run HLL_Improved.step].
    destruct (HLL_Improved.add st s) as [st1|]; [ | reflexivity ].
    cbn [mbind option_bind].
    specialize (IH st1).
    destruct (HLL_Improved.run log st1 cs)
      as [[s2 o2]|], (HLL_Improved.run log st1 (filter _ cs)) as [[s3 o3]|];
      cbn in *; congruence.
  - rewrite filter_cons_False by done. rewrite IH.
    cbn [HLL_Improved.run HLL_Improved.step]. rewrite HLL_Improved_estimate_call.
    cbn [mbind option_bind].
    destruct (HLL_Improved.run log st cs) as [[s2 o2]|]; reflexivity.
Qed.

(** * The claims *)

Local Open Scope string_scope.
Local Open Scope list_scope.

(** A sketch fresh from its constructor is valid, by evaluation. *)
Ltac valid_by_evaluation := split; [ cbn; lia | split; reflexivity ].

(** * C1: the two stores give the same estimate *)

(** C1, as stated, fails at precision 1: the empty string hashes to 0, its
    remainder is 0 and its rank 32; [HLL] stores 32 and [HLL_Improved]
    stores the clamped 31. With no register left at 0 the raw estimates
    are returned, and they differ. *)
Lemma storage_equivalence_fails_at_precision_1 :
  HLL.regs <$> HLL.add_all (HLL.new 1 HashGen.hash) [EmptyString; "stream"]
    = Some [32; 1] /\
  HLL_Improved.regs <$>
    HLL_Improved.add_all (HLL_Improved.new 1 HashGen.hash) [EmptyString; "stream"]
    = Some [31; 1] /\
  forall log, ~ storage_equivalent log 1 HashGen.hash [EmptyString; "stream"].
Proof.
  assert (E1 : HLL.regs <$> HLL.add_all (HLL.new 1 HashGen.hash) [EmptyString; "stream"]
               = Some [32; 1]) by (vm_compute; reflexivity).
  assert (E2 : HLL_Improved.regs <$>
                 HLL_Improved.add_all
                     (HLL_Improved.new 1 HashGen.hash) [EmptyString; "stream"]
               = Some [31; 1]) by (vm_compute; reflexivity).
  split; [ exact E1 | ]. split; [ exact E2 | ].
  intros log (s1 & s2 & H1 & H2 & He).
  destruct (HLL_add_all_inv [EmptyString; "stream"] (HLL.new 1 HashGen.hash))
    as (t1 & Ht1 & _ & _ & Hm1 & _); [ apply HLL_new_valid; lia | ].
  destruct (HLL_Improved_add_all_inv [EmptyString; "stream"]
      (HLL_Improved.new 1 HashGen.hash))
    as (t2 & Ht2 & _ & _ & Hm2 & _); [ apply HLL_Improved_new_valid; lia | ].
  rewrite H1 in E1, Ht1. rewrite H2 in E2, Ht2.
  injection Ht1 as <-. injection Ht2 as <-.
  injection E1 as E1. injection E2 as E2.
  unfold HLL.estimate, HLL_Improved.estimate in He.
  rewrite E1, E2, Hm1, Hm2 in He.
  apply (f_equal Prim2SF) in He. vm_compute in He. discriminate He.
Qed.

(** C1, amended: for every precision in [2,16], every hash function and
    every sequence of [add] calls applied alike to an [HLL] and to an
    [HLL_Improved], both sequences return and the two [estimate] calls
    return the same value. *)
Theorem storage_equivalence log b h items :
  2 <= b <= 16 -> storage_equivalent log b h items.
Proof.
  intros Hb.
  destruct (same_fields_add_all items (HLL.new b h) (HLL_Improved.new b h))
    as (s1 & s2 & H1 & H2 & Hsame).
  - apply same_fields_new.
  - apply HLL_new_valid. lia.
  - cbn. lia.
  - exists s1, s2. split; [ done | ]. split; [ done | ].
    now apply same_fields_estimate.
Qed.

Lemma storage_equivalence_witness :
  2 <= 8 <= 16 /\
  storage_equivalent (fun x => x) 8 HashGen.hash ["a"; "stream"; "a"].
Proof. split; [ lia | apply storage_equivalence; lia ]. Defined.

(** * C2: [memory_usage] *)

(** C2, as stated, fails at precision 1: 2 registers of 5 bits need
    [ceil (10 / 8) = 2] bytes and [memory_usage] returns [10 / 8 = 1]. *)
Lemma memory_usage_rounds_down_at_precision_1 :
  HLL_Improved.memory_usage (HLL_Improved.new 1 HashGen.hash) = 1 /\
  ceil_div (HLL_Improved.m (HLL_Improved.new 1 HashGen.hash) * 5) 8 = 2.
Proof. split; reflexivity. Qed.

Lemma memory_usage_cases b :
  1 <= b <= 16 ->
  wrap64 (Z.quot (2 ^ b * 5) 8) = 2 ^ b * 5 / 8 /\
  (3 <= b -> wrap64 (Z.quot (2 ^ b * 5) 8) = ceil_div (2 ^ b * 5) 8) /\
  (b = 8 -> wrap64 (Z.quot (2 ^ b * 5) 8) = 160).
Proof.
  revert b. apply all_precisions; (split; [ reflexivity | ]);
    split; intros; first [ reflexivity | lia ].
Qed.

(** C2, amended: [memory_usage] returns [registerCount * 5 / 8] rounded
    down; that is [ceil (registerCount * 5 / 8)] for every precision from
    3 on, and 160 for precision 8. *)
Theorem memory_usage_formula (st : HLL_Improved.t) :
  HLL_Improved.valid st ->
  HLL_Improved.memory_usage st = HLL_Improved.m st * 5 / 8 /\
  (3 <= HLL_Improved.B st ->
   HLL_Improved.memory_usage st = ceil_div (HLL_Improved.m st * 5) 8) /\
  (HLL_Improved.B st = 8 -> HLL_Improved.memory_usage st = 160).
Proof.
  intros (Hb & Hm & _). unfold HLL_Improved.memory_usage. rewrite Hm.
  now apply memory_usage_cases.
Qed.

Lemma memory_usage_formula_witness :
  HLL_Improved.valid (HLL_Improved.new 8 HashGen.hash) /\
  HLL_Improved.memory_usage (HLL_Improved.new 8 HashGen.hash) = 160.
Proof.
  assert (Hv : HLL_Improved.valid (HLL_Improved.new 8 HashGen.hash))
    by valid_by_evaluation.
  split; [ exact Hv | ].
  apply (proj2 (proj2 (memory_usage_formula _ Hv))). reflexivity.
Defined.

(** * C3: index, remainder and rank *)

(** C3: for every precision in [1,16] and every item, with
    [h = hashFn(item)], [add] computes the index [h >> (32 - precision)]
    (one of the [2^precision] registers) and the rank as the leading zeros
    of the remainder [h << precision] within its window of
    [32 - precision] bits, plus 1; a remainder of 0 has rank
    [(32 - precision) + 1]; and [add] writes that rank at that index when
    it exceeds the register. The two classes compute the same index and,
    before [HLL_Improved] clamps it, the same rank. *)
Theorem add_index_and_rank (st : HLL.t) (st2 : HLL_Improved.t) (s : string) :
  HLL.valid st -> HLL_Improved.valid st2 ->
  (let b := HLL.B st in
   let h := wrap32 (HLL.hash_func st s) in
   HLL.index_and_rank st s = Some (spec_index b h, spec_rank b h) /\
   0 <= spec_index b h < HLL.m st /\
   (spec_remainder b h = 0 -> spec_rank b h = (32 - b) + 1) /\
   exists old,
     HLL.regs st !! Z.to_nat (spec_index b h) = Some old /\
     HLL.add st s =
       Some (if spec_rank b h >? old
             then HLL.mk b (HLL.m st)
                    (<[Z.to_nat (spec_index b h) := spec_rank b h]> (HLL.regs st))
                    (HLL.hash_func st)
             else st)) /\
  (let b := HLL_Improved.B st2 in
   let h := wrap32 (HLL_Improved.hash_func st2 s) in
   HLL_Improved.index_and_rank st2 s = Some (spec_index b h, spec_rank b h) /\
   0 <= spec_index b h < HLL_Improved.m st2 /\
   (spec_remainder b h = 0 -> spec_rank b h = (32 - b) + 1)).
Proof.
  intros Hv Hv2.
  assert (Hzero : forall b h, spec_remainder b h = 0 -> 1 <= b <= 16 ->
                              spec_rank b h = 32 - b + 1).
  { intros b h H0 Hb. unfold spec_rank. rewrite H0, leading_zeros_zero. lia. }
  split; cbv zeta.
  - split; [ now apply HLL_index_and_rank | ].
    destruct Hv as (Hb & Hm & Hlen). split.
    + rewrite Hm. apply spec_index_range; [ done | apply wrap32_range ].
    + split; [ intros H0; now apply Hzero | ].
      now apply HLL_add_unfold.
  - split; [ now apply HLL_Improved_index_and_rank | ].
    destruct Hv2 as (Hb & Hm & Hlen). split.
    + rewrite Hm. apply spec_index_range; [ done | apply wrap32_range ].
    + intros H0; now apply Hzero.
Qed.

Lemma add_index_and_rank_witness :
  HLL.valid (HLL.new 4 HashGen.hash) /\
  HLL_Improved.valid (HLL_Improved.new 4 HashGen.hash) /\
  HLL.index_and_rank (HLL.new 4 HashGen.hash) "cardinality" = Some (3, 3).
Proof.
  assert (Hv : HLL.valid (HLL.new 4 HashGen.hash)) by valid_by_evaluation.
  assert (Hv2 : HLL_Improved.valid (HLL_Improved.new 4 HashGen.hash))
    by valid_by_evaluation.
  split; [ exact Hv | ]. split; [ exact Hv2 | ].
  exact (proj1 (proj1 (add_index_and_rank _ _ "cardinality" Hv Hv2))).
Defined.

(** * C4: registers never decrease under [add] *)

(** C4: on either class, [add] leaves at the item's index the maximum of
    the old register and the rank (the rank clamped to 31 in
    [HLL_Improved]), and neither one [add] nor a sequence of [add] calls
    lowers any register. *)
Theorem registers_monotone
    (st : HLL.t) (st2 : HLL_Improved.t) (s : string) (items : list string) :
  HLL.valid st -> HLL_Improved.valid st2 ->
  (let idx := Z.to_nat (spec_index (HLL.B st) (wrap32 (HLL.hash_func st s))) in
   let rank := spec_rank (HLL.B st) (wrap32 (HLL.hash_func st s)) in
   exists old st',
     HLL.regs st !! idx = Some old /\ HLL.add st s = Some st' /\
     HLL.regs st' !! idx = Some (Z.max old rank) /\
     regs_le (HLL.regs st) (HLL.regs st')) /\
  (exists st', HLL.add_all st items = Some st' /\
               regs_le (HLL.regs st) (HLL.regs st')) /\
  (let idx := Z.to_nat (spec_index (HLL_Improved.B st2)
                          (wrap32 (HLL_Improved.hash_func st2 s))) in
   let rank := Z.min (spec_rank (HLL_Improved.B st2)
                        (wrap32 (HLL_Improved.hash_func st2 s))) 31 in
   exists old st',
     HLL_Improved.regs st2 !! idx = Some old /\
     HLL_Improved.add st2 s = Some st' /\
     HLL_Improved.regs st' !! idx = Some (Z.max old rank) /\
     regs_le (HLL_Improved.regs st2) (HLL_Improved.regs st')) /\
  (exists st', HLL_Improved.add_all st2 items = Some st' /\
               regs_le (HLL_Improved.regs st2) (HLL_Improved.regs st')).
Proof.
  intros Hv Hv2. cbv zeta. repeat split.
  - destruct (HLL_add_max st s Hv) as (old & st' & Hold & Hadd & Hregs & _).
    exists old, st'. repeat split; try done.
    + rewrite Hregs. apply list_lookup_insert_eq. eapply lookup_lt_Some; eauto.
    + now apply (HLL_add_inv st s st' Hv Hadd).
  - destruct (HLL_add_all_inv items st Hv) as (st' & Hall & _ & _ & _ & _ & Hle).
    eauto.
  - destruct (HLL_Improved_add_max st2 s Hv2) as (old & st' & Hold & Hadd & Hregs & _).
    rewrite clamp_min in Hregs.
    exists old, st'. repeat split; try done.
    + rewrite Hregs. apply list_lookup_insert_eq. eapply lookup_lt_Some; eauto.
    + now apply (HLL_Improved_add_inv st2 s st' Hv2 Hadd).
  - destruct (HLL_Improved_add_all_inv items st2 Hv2)
      as (st' & Hall & _ & _ & _ & _ & Hle).
    eauto.
Qed.

Lemma registers_monotone_witness :
  HLL.valid (HLL.new 4 HashGen.hash) /\
  HLL_Improved.valid (HLL_Improved.new 4 HashGen.hash) /\
  exists st',
    HLL.add_all (HLL.new 4 HashGen.hash) ["cardinality"; "a"] = Some st' /\
    regs_le (HLL.regs (HLL.new 4 HashGen.hash)) (HLL.regs st').
Proof.
  assert (Hv : HLL.valid (HLL.new 4 HashGen.hash)) by valid_by_evaluation.
  assert (Hv2 : HLL_Improved.valid (HLL_Improved.new 4 HashGen.hash))
    by valid_by_evaluation.
  split; [ exact Hv | ]. split; [ exact Hv2 | ].
  exact (proj1 (proj2 (registers_monotone _ _ "a" ["cardinality"; "a"] Hv Hv2))).
Defined.

(** * C5: adding an item again *)

(** C5: after a sequence of [add] calls on a sketch of either class,
    adding again any item of the sequence returns the sketch as it was:
    every register, and so the result of [estimate], is unchanged. *)
Theorem readd_idempotent (log : float -> float)
    (st0 : HLL.t) (st2 : HLL_Improved.t) (items : list string) (s : string) :
  HLL.valid st0 -> HLL_Improved.valid st2 -> In s items ->
  (exists st st',
     HLL.add_all st0 items = Some st /\ HLL.add st s = Some st' /\
     HLL.regs st' = HLL.regs st /\ st' = st /\
     HLL.estimate log st' = HLL.estimate log st) /\
  (exists st st',
     HLL_Improved.add_all st2 items = Some st /\
     HLL_Improved.add st s = Some st' /\
     HLL_Improved.regs st' = HLL_Improved.regs st /\ st' = st /\
     HLL_Improved.estimate log st' = HLL_Improved.estimate log st).
Proof.
  intros Hv Hv2 Hin. split.
  - destruct (HLL_add_all_inv items st0 Hv) as (st & Hall & Hvst & _).
    exists st, st. split; [ done | ]. split; [ | done ].
    apply HLL_covers_add; [ done | ].
    apply (HLL_add_all_covers items st0 st s Hv Hall). now right.
  - destruct (HLL_Improved_add_all_inv items st2 Hv2) as (st & Hall & Hvst & _).
    exists st, st. split; [ done | ]. split; [ | done ].
    apply HLL_Improved_covers_add; [ done | ].
    apply (HLL_Improved_add_all_covers items st2 st s Hv2 Hall). now right.
Qed.

Lemma readd_idempotent_witness :
  HLL.valid (HLL.new 4 HashGen.hash) /\
  HLL_Improved.valid (HLL_Improved.new 4 HashGen.hash) /\
  In "a" ["cardinality"; "a"; "stream"] /\
  exists st st',
    HLL.add_all (HLL.new 4 HashGen.hash) ["cardinality"; "a"; "stream"] = Some st /\
    HLL.add st "a" = Some st' /\ HLL.regs st' = HLL.regs st /\ st' = st /\
    HLL.estimate (fun x => x) st' = HLL.estimate (fun x => x) st.
Proof.
  assert (Hv : HLL.valid (HLL.new 4 HashGen.hash)) by valid_by_evaluation.
  assert (Hv2 : HLL_Improved.valid (HLL_Improved.new 4 HashGen.hash))
    by valid_by_evaluation.
  assert (Hin : In "a" ["cardinality"; "a"; "stream"]) by (cbn; tauto).
  split; [ exact Hv | ]. split; [ exact Hv2 | ]. split; [ exact Hin | ].
  exact (proj1 (readd_idempotent (fun x => x) _ _ _ "a" Hv Hv2 Hin)).
Defined.

(** * C6: nothing added yet *)

(** What the body of [estimate] returns on [2^b] registers at 0. *)
Lemma estimate_body_zeros (log : float -> float) b :
  log 1%float = 0%float -> 1 <= b <= 16 ->
  (let '(sum, zero_regs) := estimate_loop (replicate (Z.to_nat (2 ^ b)) 0) in
   let fm := double_of_Z (2 ^ b) in
   let E := (0.7213 * fm * fm / sum)%float in
   if (E <=? 2.5 * fm)%float && (zero_regs >? 0)
   then (fm * log (fm / double_of_Z zero_regs))%float
   else E) = 0%float.
Proof.
  intros Hlog Hb. rewrite estimate_loop_zeros by done.
  destruct (zeros_small_range b Hb) as (Hle & Hdiv & Hmul). cbv zeta in *.
  rewrite Hle, Hdiv, Hlog, Hmul.
  assert (0 < 2 ^ b) by (apply Z.pow_pos_nonneg; lia).
  now replace (2 ^ b >? 0) with true by (symmetry; apply Z.gtb_lt; lia).
Qed.

Lemma HLL_clear_is_new b h st :
  1 <= b <= 16 -> HLL.reachable b h st -> HLL.clear st = HLL.new b h.
Proof.
  intros Hb Hr.
  destruct (HLL_reachable_valid b h st Hb Hr) as ((_ & Hm & Hlen) & HB & Hh).
  unfold HLL.clear, HLL.new, shl_int. rewrite Z.shiftl_1_l, Hlen, Hm, HB, Hh.
  reflexivity.
Qed.

(** C6: for every precision of the data model, with a logarithm that
    returns 0 at 1 as the C library's does, a freshly constructed sketch
    of either class has every register at 0, counts all its registers as
    zero, and [estimate] returns 0; [clear] on a reachable [HLL] sets
    every register to 0, and [estimate] then returns 0. *)
Theorem fresh_estimate_zero (log : float -> float) (b : Z) (h : string -> Z) :
  log 1%float = 0%float -> 1 <= b <= 16 ->
  (Forall (fun r => r = 0) (HLL.regs (HLL.new b h)) /\
   snd (estimate_loop (HLL.regs (HLL.new b h))) = HLL.m (HLL.new b h) /\
   HLL.estimate log (HLL.new b h) = 0%float) /\
  (Forall (fun r => r = 0) (HLL_Improved.regs (HLL_Improved.new b h)) /\
   snd (estimate_loop (HLL_Improved.regs (HLL_Improved.new b h)))
     = HLL_Improved.m (HLL_Improved.new b h) /\
   HLL_Improved.estimate log (HLL_Improved.new b h) = 0%float) /\
  (forall st, HLL.reachable b h st ->
     Forall (fun r => r = 0) (HLL.regs (HLL.clear st)) /\
     length (HLL.regs (HLL.clear st)) = length (HLL.regs st) /\
     snd (estimate_loop (HLL.regs (HLL.clear st))) = HLL.m (HLL.clear st) /\
     HLL.estimate log (HLL.clear st) = 0%float).
Proof.
  intros Hlog Hb.
  assert (Hnew : Forall (fun r => r = 0) (HLL.regs (HLL.new b h)) /\
    snd (estimate_loop (HLL.regs (HLL.new b h))) = HLL.m (HLL.new b h) /\
    HLL.estimate log (HLL.new b h) = 0%float).
  { unfold HLL.estimate. cbn [HLL.new HLL.regs HLL.m]. unfold shl_int.
    rewrite Z.shiftl_1_l. split; [ now apply Forall_replicate | ].
    split; [ now rewrite estimate_loop_zeros | now apply estimate_body_zeros ]. }
  split; [ exact Hnew | ]. split.
  - unfold HLL_Improved.estimate.
    cbn [HLL_Improved.new HLL_Improved.regs HLL_Improved.m].
    unfold shl_int. change (bitset5 0) with 0.
    rewrite Z.shiftl_1_l. split; [ now apply Forall_replicate | ].
    split; [ now rewrite estimate_loop_zeros | now apply estimate_body_zeros ].
  - intros st Hr. split; [ now apply Forall_replicate | ].
    split; [ apply length_replicate | ].
    rewrite (HLL_clear_is_new b h st Hb Hr). apply Hnew.
Qed.

Lemma fresh_estimate_zero_witness :
  (1 - 1 = 0)%float /\ 1 <= 4 <= 16 /\
  HLL.estimate (fun x => x - 1)%float (HLL.new 4 HashGen.hash) = 0%float.
Proof.
  assert (Hlog : (1 - 1 = 0)%float) by reflexivity.
  assert (Hb : 1 <= 4 <= 16) by lia.
  split; [ exact Hlog | ]. split; [ exact Hb | ].
  exact (proj2 (proj2 (proj1
    (fresh_estimate_zero (fun x => x - 1)%float 4 HashGen.hash Hlog Hb)))).
Defined.

(** * C7: the formula of [estimate] *)

Lemma estimate_body_spec (log : float -> float) b m rs :
  1 <= b <= 16 -> m = 2 ^ b -> Forall (fun r => 0 <= r <= 63) rs ->
  (let '(sum, zero_regs) := estimate_loop rs in
   let fm := double_of_Z m in
   let E := (0.7213 * fm * fm / sum)%float in
   if (E <=? 2.5 * fm)%float && (zero_regs >? 0)
   then (fm * log (fm / double_of_Z zero_regs))%float
   else E) = spec_estimate log m rs.
Proof.
  intros Hb -> Hrs. rewrite estimate_loop_spec by done. cbv zeta.
  unfold spec_estimate, E_raw. rewrite alpha_m_m by done.
  now rewrite Z.gtb_ltb.
Qed.

Lemma spec_estimate_no_zero log m rs :
  zeroCount rs = 0 -> spec_estimate log m rs = E_raw m rs.
Proof. intros Hz. unfold spec_estimate. rewrite Hz. now rewrite andb_false_r. Qed.

(** C7: on registers whose values [unsigned long long] can be shifted
    by, [estimate] of either class computes [E_raw = 0.7213 * m^2 / Z]
    with [Z] the sum of [2^(-value)]; it returns [m * ln(m / zeroCount)]
    when [E_raw <= 2.5 * m] and [zeroCount > 0], and [E_raw] otherwise,
    so also whenever [zeroCount = 0]. *)
Theorem estimate_formula (log : float -> float) (st : HLL.t) (st2 : HLL_Improved.t) :
  HLL.valid st -> HLL_Improved.valid st2 ->
  Forall (fun r => 0 <= r <= 63) (HLL.regs st) ->
  Forall (fun r => 0 <= r <= 63) (HLL_Improved.regs st2) ->
  (HLL.estimate log st = spec_estimate log (HLL.m st) (HLL.regs st) /\
   (zeroCount (HLL.regs st) = 0 ->
    HLL.estimate log st = E_raw (HLL.m st) (HLL.regs st))) /\
  (HLL_Improved.estimate log st2
     = spec_estimate log (HLL_Improved.m st2) (HLL_Improved.regs st2) /\
   (zeroCount (HLL_Improved.regs st2) = 0 ->
    HLL_Improved.estimate log st2
      = E_raw (HLL_Improved.m st2) (HLL_Improved.regs st2))).
Proof.
  intros (Hb & Hm & _) (Hb2 & Hm2 & _) Hrs Hrs2.
  assert (H1 : HLL.estimate log st = spec_estimate log (HLL.m st) (HLL.regs st))
    by (unfold HLL.estimate; now apply (estimate_body_spec log (HLL.B st))).
  assert (H2 : HLL_Improved.estimate log st2
               = spec_estimate log (HLL_Improved.m st2) (HLL_Improved.regs st2))
    by (unfold HLL_Improved.estimate;
        now apply (estimate_body_spec log (HLL_Improved.B st2))).
  split; (split; [ done | ]); intros Hz.
  - rewrite H1. now apply spec_estimate_no_zero.
  - rewrite H2. now apply spec_estimate_no_zero.
Qed.

(** With both registers at 1 and precision 1, [zeroCount] is 0 and the
    raw estimate, under [2.5 * m], is what [estimate] returns. *)
Example estimate_raw_under_threshold :
  let rs : list Z := [1; 1] in
  let st := HLL.mk 1 2 rs HashGen.hash in
  (E_raw 2 rs <=? 2.5 * double_of_Z 2)%float = true /\
  zeroCount rs = 0 /\
  forall log, HLL.estimate log st = E_raw 2 rs.
Proof.
  cbv zeta. split; [ vm_compute; reflexivity | ]. split; [ reflexivity | ].
  intros log. apply Leibniz.eqb_spec. vm_compute. reflexivity.
Qed.

Lemma estimate_formula_witness :
  HLL.valid (HLL.new 1 HashGen.hash) /\
  HLL_Improved.valid (HLL_Improved.new 1 HashGen.hash) /\
  Forall (fun r => 0 <= r <= 63) (HLL.regs (HLL.new 1 HashGen.hash)) /\
  Forall (fun r => 0 <= r <= 63)
      (HLL_Improved.regs (HLL_Improved.new 1 HashGen.hash)) /\
  HLL.estimate (fun x => x) (HLL.new 1 HashGen.hash)
    = spec_estimate (fun x => x) 2 [0; 0].
Proof.
  assert (Hv : HLL.valid (HLL.new 1 HashGen.hash)) by valid_by_evaluation.
  assert (Hv2 : HLL_Improved.valid (HLL_Improved.new 1 HashGen.hash))
    by valid_by_evaluation.
  assert (Hr : Forall (fun r => 0 <= r <= 63) (HLL.regs (HLL.new 1 HashGen.hash)))
    by (cbn; repeat constructor; lia).
  assert (Hr2 : Forall (fun r => 0 <= r <= 63)
                  (HLL_Improved.regs (HLL_Improved.new 1 HashGen.hash)))
    by (change (Forall (fun r => 0 <= r <= 63) [0; 0]); repeat constructor; lia).
  split; [ exact Hv | ]. split; [ exact Hv2 | ].
  split; [ exact Hr | ]. split; [ exact Hr2 | ].
  exact (proj1 (proj1 (estimate_formula (fun x => x) _ _ Hv Hv2 Hr Hr2))).
Defined.

(** * C8: the divisor of the raw estimate *)

(** What [add] does to a fresh sketch of precision 4 on "cardinality":
    register 3 takes the rank 3. *)
Lemma HLL_add_cardinality :
  exists st,
    HLL.add (HLL.new 4 HashGen.hash) "cardinality" = Some st /\
    HLL.regs st !! 3%nat = Some 3.
Proof.
  assert (Hv : HLL.valid (HLL.new 4 HashGen.hash)) by (apply HLL_new_valid; lia).
  destruct (HLL_add_max _ "cardinality" Hv) as (old & st & Hold & Hadd & Hregs & _).
  exists st. split; [ exact Hadd | ]. rewrite Hregs.
  change (HLL.B (HLL.new 4 HashGen.hash)) with 4 in *.
  change (HLL.hash_func (HLL.new 4 HashGen.hash)) with HashGen.hash in *.
  assert (Hi : Z.to_nat (spec_index 4 (wrap32 (HashGen.hash "cardinality"))) = 3%nat)
    by (vm_compute; reflexivity).
  assert (Hk : spec_rank 4 (wrap32 (HashGen.hash "cardinality")) = 3)
    by (vm_compute; reflexivity).
  rewrite Hi, Hk in *.
  assert (old = 0) by (vm_compute in Hold; congruence). subst old.
  reflexivity.
Qed.

(** C8, as stated, fails in its reason: a register above 0 adds less
    than 1 to the sum. After "cardinality" is added at precision 4,
    register 3 holds 3 and adds [2^(-3)]. *)
Lemma register_term_below_one :
  ~ (forall st, HLL.reachable 4 HashGen.hash st ->
       Forall (fun r => (1 <=? reg_term r)%float = true) (HLL.regs st)).
Proof.
  intros Hall. destruct HLL_add_cardinality as (st & Hadd & H3).
  assert (Hr : HLL.reachable 4 HashGen.hash st)
    by (eapply HLL.reach_add; [ apply HLL.reach_new | exact Hadd ]).
  pose proof (Forall_lookup_1 _ _ _ _ (Hall st Hr) H3) as Hge.
  vm_compute in Hge. discriminate Hge.
Qed.

(** C8, amended: in every reachable state of either class, every
    register adds [2^(-value)] to the sum, a double above 0 and at most
    [2^0 = 1], and the sum [Z], the divisor of the raw estimate, is
    strictly positive: the division never divides by zero. *)
Theorem divisor_positive (b : Z) (h : string -> Z)
    (st : HLL.t) (st2 : HLL_Improved.t) :
  1 <= b <= 16 -> HLL.reachable b h st -> HLL_Improved.reachable b h st2 ->
  ((0 <? fst (estimate_loop (HLL.regs st)))%float = true /\
   Forall (fun r => reg_term r = pow2_neg r /\
                    (0 <? reg_term r)%float = true /\
                    (reg_term r <=? 1)%float = true) (HLL.regs st)) /\
  ((0 <? fst (estimate_loop (HLL_Improved.regs st2)))%float = true /\
   Forall (fun r => reg_term r = pow2_neg r /\
                    (0 <? reg_term r)%float = true /\
                    (reg_term r <=? 1)%float = true) (HLL_Improved.regs st2)).
Proof.
  intros Hb Hr Hr2.
  assert (Hrange : Forall (fun r => 0 <= r <= 63) (HLL.regs st)).
  { eapply Forall_impl; [ apply (HLL_reachable_range b h st Hb Hr) | ].
    cbn beta. intros r Hrr. lia. }
  assert (Hrange2 : Forall (fun r => 0 <= r <= 63) (HLL_Improved.regs st2)).
  { eapply Forall_impl; [ apply (HLL_Improved_reachable_range b h st2 Hb Hr2) | ].
    cbn beta. intros r Hrr. lia. }
  destruct (HLL_reachable_valid b h st Hb Hr) as ((_ & Hm & Hlen) & HB & _).
  destruct (HLL_Improved_reachable_valid b h st2 Hb Hr2)
    as ((_ & Hm2 & Hlen2) & HB2 & _).
  assert (Hterm : forall r, 0 <= r <= 63 ->
            reg_term r = pow2_neg r /\
            (0 <? reg_term r)%float = true /\ (reg_term r <=? 1)%float = true)
    by (intros r Hrr; split; [ now apply reg_term_pow2 | now apply reg_term_bounds ]).
  split; split.
  - apply estimate_loop_pos; [ | done ].
    apply (valid_regs_nonempty _ (HLL.m st) b); congruence.
  - eapply Forall_impl; [ exact Hrange | exact Hterm ].
  - apply estimate_loop_pos; [ | done ].
    apply (valid_regs_nonempty _ (HLL_Improved.m st2) b); congruence.
  - eapply Forall_impl; [ exact Hrange2 | exact Hterm ].
Qed.

Lemma divisor_positive_witness :
  1 <= 4 <= 16 /\
  HLL.reachable 4 HashGen.hash (HLL.new 4 HashGen.hash) /\
  HLL_Improved.reachable 4 HashGen.hash (HLL_Improved.new 4 HashGen.hash) /\
  (0 <? fst (estimate_loop (HLL.regs (HLL.new 4 HashGen.hash))))%float = true.
Proof.
  assert (Hb : 1 <= 4 <= 16) by lia.
  split; [ exact Hb | ].
  split; [ apply HLL.reach_new | ]. split; [ apply HLL_Improved.reach_new | ].
  exact (proj1 (proj1 (divisor_positive 4 HashGen.hash _ _ Hb
    (HLL.reach_new 4 HashGen.hash) (HLL_Improved.reach_new 4 HashGen.hash)))).
Defined.

(** * C9: what [add] touches *)

(** C9, as stated, fails when an item is added again: the second [add]
    of "cardinality" returns the sketch unchanged, so no register is
    mutated. *)
Lemma add_again_mutates_nothing :
  ~ (forall st s st',
       HLL.reachable 4 HashGen.hash st -> HLL.add st s = Some st' ->
       mutates_exactly_one (HLL.regs st) (HLL.regs st')).
Proof.
  intros Hall. destruct HLL_add_cardinality as (st & Hadd & _).
  assert (Hv0 : HLL.valid (HLL.new 4 HashGen.hash)) by (apply HLL_new_valid; lia).
  assert (Hr : HLL.reachable 4 HashGen.hash st)
    by (eapply HLL.reach_add; [ apply HLL.reach_new | exact Hadd ]).
  destruct (HLL_add_inv _ _ _ Hv0 Hadd) as (Hv & _).
  pose proof (HLL_covers_add st "cardinality" Hv (HLL_add_covers _ _ _ Hv0 Hadd))
    as Hagain.
  destruct (Hall st "cardinality" st Hr Hagain) as (i & Hi & _). now apply Hi.
Qed.

(** C9, amended: on a valid sketch of either class, for any string and
    any hash value, [add] returns; it leaves [B], [m], the hash function
    and the number of registers as they were, and every register other
    than the one at the computed index unchanged; that one register ends
    at the maximum of its old value and the rank, so it is left as it was
    when the rank does not exceed it. *)
Theorem add_frame (st : HLL.t) (st2 : HLL_Improved.t) (s : string) :
  HLL.valid st -> HLL_Improved.valid st2 ->
  (let idx := Z.to_nat (spec_index (HLL.B st) (wrap32 (HLL.hash_func st s))) in
   let rank := spec_rank (HLL.B st) (wrap32 (HLL.hash_func st s)) in
   exists old st',
     HLL.regs st !! idx = Some old /\
     HLL.add st s = Some st' /\
     HLL.B st' = HLL.B st /\ HLL.m st' = HLL.m st /\
     HLL.hash_func st' = HLL.hash_func st /\
     length (HLL.regs st') = length (HLL.regs st) /\
     (forall j : nat, j <> idx -> HLL.regs st' !! j = HLL.regs st !! j) /\
     HLL.regs st' !! idx = Some (Z.max old rank) /\
     (rank <= old -> st' = st)) /\
  (let idx := Z.to_nat (spec_index (HLL_Improved.B st2)
                          (wrap32 (HLL_Improved.hash_func st2 s))) in
   let rank := Z.min (spec_rank (HLL_Improved.B st2)
                        (wrap32 (HLL_Improved.hash_func st2 s))) 31 in
   exists old st',
     HLL_Improved.regs st2 !! idx = Some old /\
     HLL_Improved.add st2 s = Some st' /\
     HLL_Improved.B st' = HLL_Improved.B st2 /\
     HLL_Improved.m st' = HLL_Improved.m st2 /\
     HLL_Improved.hash_func st' = HLL_Improved.hash_func st2 /\
     length (HLL_Improved.regs st') = length (HLL_Improved.regs st2) /\
     (forall j : nat,
        j <> idx -> HLL_Improved.regs st' !! j = HLL_Improved.regs st2 !! j) /\
     HLL_Improved.regs st' !! idx = Some (Z.max old rank) /\
     (rank <= old -> st' = st2)).
Proof.
  intros Hv Hv2. cbv zeta. split.
  - destruct (HLL_add_max st s Hv) as (old & st' & Hold & Hadd & Hregs & HB & Hm & Hh).
    exists old, st'. repeat split; try done.
    + rewrite Hregs. apply length_insert.
    + intros j Hj. rewrite Hregs. now apply list_lookup_insert_ne.
    + rewrite Hregs. apply list_lookup_insert_eq. eapply lookup_lt_Some; eauto.
    + intros Hle. destruct (HLL_add_unfold st s Hv) as (old' & Hold' & Hadd').
      assert (old' = old) by congruence. subst old'.
      rewrite Hadd' in Hadd. revert Hadd.
      destruct (Z.gtb_spec (spec_rank (HLL.B st) (wrap32 (HLL.hash_func st s))) old);
        [ lia | congruence ].
  - destruct (HLL_Improved_add_max st2 s Hv2)
      as (old & st' & Hold & Hadd & Hregs & HB & Hm & Hh).
    rewrite clamp_min in Hregs.
    exists old, st'. repeat split; try done.
    + rewrite Hregs. apply length_insert.
    + intros j Hj. rewrite Hregs. now apply list_lookup_insert_ne.
    + rewrite Hregs. apply list_lookup_insert_eq. eapply lookup_lt_Some; eauto.
    + intros Hle. destruct (HLL_Improved_add_unfold st2 s Hv2) as (old' & Hold' & Hadd').
      assert (old' = old) by congruence. subst old'.
      rewrite Hadd' in Hadd. rewrite clamp_min in Hadd. revert Hadd.
      set (rank := Z.min _ 31) in *.
      destruct (Z.gtb_spec rank old); [ lia | congruence ].
Qed.

Lemma add_frame_witness :
  HLL.valid (HLL.new 4 HashGen.hash) /\
  HLL_Improved.valid (HLL_Improved.new 4 HashGen.hash) /\
  exists old st',
    HLL.regs (HLL.new 4 HashGen.hash) !! 3%nat = Some old /\
    HLL.add (HLL.new 4 HashGen.hash) "cardinality" = Some st' /\
    HLL.B st' = 4 /\ HLL.m st' = 16 /\ HLL.hash_func st' = HashGen.hash /\
    length (HLL.regs st') = 16%nat /\
    (forall j : nat, j <> 3%nat ->
       HLL.regs st' !! j = HLL.regs (HLL.new 4 HashGen.hash) !! j) /\
    HLL.regs st' !! 3%nat = Some (Z.max old 3) /\
    (3 <= old -> st' = HLL.new 4 HashGen.hash).
Proof.
  assert (Hv : HLL.valid (HLL.new 4 HashGen.hash)) by valid_by_evaluation.
  assert (Hv2 : HLL_Improved.valid (HLL_Improved.new 4 HashGen.hash))
    by valid_by_evaluation.
  split; [ exact Hv | ]. split; [ exact Hv2 | ].
  exact (proj1 (add_frame _ _ "cardinality" Hv Hv2)).
Defined.

(** * C10: [estimate] observes *)

(** C10: on either class and in every state, the body of [estimate],
    run statement by statement on the object, returns, and leaves the
    object, its registers and its other fields, as it was; what it
    returns is the estimate computed from the registers and [m]. So two
    calls in a row return equal values; a call put anywhere into a
    sequence of calls leaves the states and the results of the calls
    after it as they are without it; and the final state of a sequence is
    that of the sequence stripped of its [estimate] calls. *)
Theorem estimate_observer (log : float -> float) :
  (forall (st : HLL.t) (cs1 cs2 cs : list HLL.call),
     HLL.estimate_call log st = Some (HLL.estimate log st, st) /\
     HLL.run log st [HLL.Estimate; HLL.Estimate]
       = Some (st, [HLL.estimate log st; HLL.estimate log st]) /\
     HLL.run log st (cs1 ++ HLL.Estimate :: cs2)
       = ('(s1, o1) ← HLL.run log st cs1;
          '(s2, o2) ← HLL.run log s1 cs2;
          Some (s2, o1 ++ HLL.estimate log s1 :: o2)) /\
     HLL.run log st (cs1 ++ cs2)
       = ('(s1, o1) ← HLL.run log st cs1;
          '(s2, o2) ← HLL.run log s1 cs2;
          Some (s2, o1 ++ o2)) /\
     fst <$> HLL.run log st (filter (fun c => HLL.is_estimate c = false) cs)
       = fst <$> HLL.run log st cs) /\
  (forall (st : HLL_Improved.t) (cs1 cs2 cs : list HLL_Improved.call),
     HLL_Improved.estimate_call log st = Some (HLL_Improved.estimate log st, st) /\
     HLL_Improved.run log st [HLL_Improved.Estimate; HLL_Improved.Estimate]
       = Some (st, [HLL_Improved.estimate log st; HLL_Improved.estimate log st]) /\
     HLL_Improved.run log st (cs1 ++ HLL_Improved.Estimate :: cs2)
       = ('(s1, o1) ← HLL_Improved.run log st cs1;
          '(s2, o2) ← HLL_Improved.run log s1 cs2;
          Some (s2, o1 ++ HLL_Improved.estimate log s1 :: o2)) /\
     HLL_Improved.run log st (cs1 ++ cs2)
       = ('(s1, o1) ← HLL_Improved.run log st cs1;
          '(s2, o2) ← HLL_Improved.run log s1 cs2;
          Some (s2, o1 ++ o2)) /\
     fst <$> HLL_Improved.run log st
               (filter (fun c => HLL_Improved.is_estimate c = false) cs)
       = fst <$> HLL_Improved.run log st cs).
Proof.
  split; intros st cs1 cs2 cs.
  - split; [ apply HLL_estimate_call | ].
    split.
    { cbn [HLL.run HLL.step]. rewrite HLL_estimate_call. cbn [mbind option_bind].
      now rewrite HLL_estimate_call. }
    split; [ | split; [ apply HLL_run_app | apply HLL_run_strip ] ].
    rewrite HLL_run_app. destruct (HLL.run log st cs1) as [[s1 o1]|]; [ | reflexivity ].
    cbn [mbind option_bind HLL.run HLL.step]. rewrite HLL_estimate_call.
    cbn [mbind option_bind].
    destruct (HLL.run log s1 cs2) as [[s2 o2]|]; reflexivity.
  - split; [ apply HLL_Improved_estimate_call | ].
    split.
    { cbn [HLL_Improved.run HLL_Improved.step]. rewrite HLL_Improved_estimate_call.
      cbn [mbind option_bind]. now rewrite HLL_Improved_estimate_call. }
    split; [ | split; [ apply HLL_Improved_run_app | apply HLL_Improved_run_strip ] ].
    rewrite HLL_Improved_run_app.
    destruct (HLL_Improved.run log st cs1) as [[s1 o1]|]; [ | reflexivity ].
    cbn [mbind option_bind HLL_Improved.run HLL_Improved.step].
    rewrite HLL_Improved_estimate_call. cbn [mbind option_bind].
    destruct (HLL_Improved.run log s1 cs2) as [[s2 o2]|]; reflexivity.
Qed.

(** * Further properties of the code *)

(** * [HashGen::hash] as a polynomial *)

Lemma wrap32_wrap32_add a b : wrap32 (wrap32 a + b) = wrap32 (a + b).
Proof. unfold wrap32. now rewrite Zplus_mod_idemp_l. Qed.

Lemma wrap32_add_wrap32 a b : wrap32 (a + wrap32 b) = wrap32 (a + b).
Proof. unfold wrap32. now rewrite Zplus_mod_idemp_r. Qed.

Lemma wrap32_wrap32_mul a b : wrap32 (wrap32 a * b) = wrap32 (a * b).
Proof. unfold wrap32. now rewrite Zmult_mod_idemp_l. Qed.

Lemma hash_from_range h s : 0 <= h < 2 ^ 32 -> 0 <= HashGen.hash_from h s < 2 ^ 32.
Proof.
  revert h. induction s as [|c s IH]; intros h Hh; cbn [HashGen.hash_from]; [ done | ].
  apply IH, wrap32_range.
Qed.

Lemma wrap32_mul_add a b c : wrap32 (wrap32 a * b + c) = wrap32 (a * b + c).
Proof. now rewrite <- wrap32_wrap32_add, wrap32_wrap32_mul, wrap32_wrap32_add. Qed.

(** Started from [h], the loop multiplies [h] by 31 once per character
    and adds the hash of the characters. *)
Lemma hash_from_poly s : forall h,
  0 <= h < 2 ^ 32 ->
  HashGen.hash_from h s
  = wrap32 (h * 31 ^ Z.of_nat (String.length s) + HashGen.hash s).
Proof.
  induction s as [|c s IH]; intros h Hh.
  - cbn. rewrite Z.mul_1_r, Z.add_0_r. symmetry. now apply wrap32_small.
  - unfold HashGen.hash. cbn [HashGen.hash_from String.length].
    rewrite (IH (wrap32 (h * 31 + _))), (IH (wrap32 (0 * 31 + _)))
      by apply wrap32_range.
    rewrite Nat2Z.inj_succ, Z.pow_succ_r by lia.
    rewrite !wrap32_mul_add, wrap32_add_wrap32. f_equal. ring.
Qed.

Lemma hash_range s : 0 <= HashGen.hash s < 2 ^ 32.
Proof. apply hash_from_range. lia. Qed.

Lemma hash_from_app s1 : forall s2 h,
  HashGen.hash_from h (s1 +:+ s2) = HashGen.hash_from (HashGen.hash_from h s1) s2.
Proof. induction s1 as [|c s1 IH]; intros s2 h; [ done | ]. cbn. apply IH. Qed.

Lemma hash_app (s1 s2 : string) :
  HashGen.hash (s1 +:+ s2)
  = wrap32 (HashGen.hash s1 * 31 ^ Z.of_nat (String.length s2) + HashGen.hash s2).
Proof.
  unfold HashGen.hash at 1. rewrite hash_from_app. apply hash_from_poly, hash_range.
Qed.

(** X1: [HashGen::hash] returns a 32-bit value, and the hash of a
    concatenation is the hash of the first string times 31 to the length
    of the second, plus the hash of the second, modulo [2^32]. *)
Theorem hash_append (s1 s2 : string) :
  0 <= HashGen.hash s1 < 2 ^ 32 /\
  HashGen.hash (s1 +:+ s2)
  = wrap32 (HashGen.hash s1 * 31 ^ Z.of_nat (String.length s2) + HashGen.hash s2).
Proof. split; [ apply hash_range | apply hash_app ]. Qed.

(** * Registers in closed form *)

Section TopRank.
Variables (idx : string -> nat) (rank : string -> Z).

Lemma top_rank_cons i old s items :
  top_rank idx rank i old (s :: items)
  = top_rank idx rank i (if decide (idx s = i) then Z.max old (rank s) else old) items.
Proof. reflexivity. Qed.

Lemma top_rank_ge_old items : forall i old, old <= top_rank idx rank i old items.
Proof.
  induction items as [|s items IH]; intros i old; [ cbn; lia | ].
  rewrite top_rank_cons. etransitivity; [ | apply IH ]. case_decide; lia.
Qed.

Lemma top_rank_ge items : forall i old s,
  s ∈ items -> idx s = i -> rank s <= top_rank idx rank i old items.
Proof.
  induction items as [|x items IH]; intros i old s Hin Hi.
  - now apply elem_of_nil in Hin.
  - rewrite top_rank_cons. apply elem_of_cons in Hin. destruct Hin as [-> | Hin].
    + rewrite decide_True by done. etransitivity; [ | apply top_rank_ge_old ]. lia.
    + now apply IH.
Qed.

Lemma top_rank_attained items : forall i old,
  top_rank idx rank i old items = old \/
  exists s, s ∈ items /\ idx s = i /\ top_rank idx rank i old items = rank s.
Proof.
  induction items as [|x items IH]; intros i old; [ now left | ].
  rewrite top_rank_cons. case_decide as Hx.
  - destruct (IH i (Z.max old (rank x))) as [Heq | (s & Hs & Hi & Heq)].
    + rewrite Heq. destruct (Z.max_spec old (rank x)) as [[_ ->] | [_ ->]].
      * right. exists x. split; [ apply list_elem_of_here | done ].
      * now left.
    + right. exists s. split; [ now apply list_elem_of_further | done ].
  - destruct (IH i old) as [Heq | (s & Hs & Hi & Heq)]; [ now left | ].
    right. exists s. split; [ now apply list_elem_of_further | done ].
Qed.

(** The closed form depends on the stream only through the set of its
    items. *)
Lemma top_rank_subseteq l1 l2 i old :
  (forall s, s ∈ l1 -> s ∈ l2) ->
  top_rank idx rank i old l1 <= top_rank idx rank i old l2.
Proof.
  intros Hsub. destruct (top_rank_attained l1 i old) as [-> | (s & Hs & Hi & ->)].
  - apply top_rank_ge_old.
  - apply top_rank_ge; auto.
Qed.

Lemma raise_all_same_items l1 l2 rs :
  (forall s, s ∈ l1 <-> s ∈ l2) -> raise_all idx rank rs l1 = raise_all idx rank rs l2.
Proof.
  intros Hsame. unfold raise_all. apply imap_ext. intros i old _.
  apply Z.le_antisymm; apply top_rank_subseteq; intros s; apply Hsame.
Qed.

Lemma raise_all_nil rs : raise_all idx rank rs [] = rs.
Proof. unfold raise_all. cbn. induction rs as [|r rs IH]; [ done | ].
  cbn. f_equal. rewrite <- IH at 2. now apply imap_ext. Qed.

Lemma raise_all_lookup rs items i :
  raise_all idx rank rs items !! i
  = (fun old => top_rank idx rank i old items) <$> rs !! i.
Proof. unfold raise_all. apply list_lookup_imap. Qed.

(** One more item in front raises its register first. *)
Lemma raise_all_cons rs s items old :
  rs !! idx s = Some old ->
  raise_all idx rank (<[idx s := Z.max old (rank s)]> rs) items
  = raise_all idx rank rs (s :: items).
Proof.
  intros Hold. apply list_eq. intros i. rewrite !raise_all_lookup.
  destruct (decide (idx s = i)) as [<- | Hne].
  - rewrite list_lookup_insert_eq by (eapply lookup_lt_Some; eauto).
    rewrite Hold. cbv [fmap option_fmap option_map].
    now rewrite top_rank_cons, decide_True by done.
  - rewrite list_lookup_insert_ne by done.
    destruct (rs !! i) as [r|]; [ | done ]. cbv [fmap option_fmap option_map].
    now rewrite top_rank_cons, decide_False by done.
Qed.
End TopRank.

Lemma HLL_eq (s1 s2 : HLL.t) :
  HLL.B s1 = HLL.B s2 -> HLL.m s1 = HLL.m s2 -> HLL.regs s1 = HLL.regs s2 ->
  HLL.hash_func s1 = HLL.hash_func s2 -> s1 = s2.
Proof. destruct s1, s2. cbn. now intros -> -> -> ->. Qed.

Lemma HLL_Improved_eq (s1 s2 : HLL_Improved.t) :
  HLL_Improved.B s1 = HLL_Improved.B s2 -> HLL_Improved.m s1 = HLL_Improved.m s2 ->
  HLL_Improved.regs s1 = HLL_Improved.regs s2 ->
  HLL_Improved.hash_func s1 = HLL_Improved.hash_func s2 -> s1 = s2.
Proof. destruct s1, s2. cbn. now intros -> -> -> ->. Qed.

(** [add] over a stream, in closed form. *)
Lemma HLL_add_all_closed items : forall st,
  HLL.valid st ->
  HLL.add_all st items
  = Some (HLL.mk (HLL.B st) (HLL.m st)
            (raise_all (item_index (HLL.B st) (HLL.hash_func st))
               (item_rank (HLL.B st) (HLL.hash_func st)) (HLL.regs st) items)
            (HLL.hash_func st)).
Proof.
  induction items as [|s items IH]; intros st Hv.
  - cbn. rewrite raise_all_nil. now destruct st.
  - cbn [HLL.add_all].
    destruct (HLL_add_max st s Hv) as (old & st' & Hold & Hadd & Hregs & HB & Hm & Hh).
    rewrite Hadd. cbn [mbind option_bind].
    destruct (HLL_add_inv st s st' Hv Hadd) as (Hv' & _).
    rewrite (IH st' Hv'), HB, Hm, Hh, Hregs. do 2 f_equal.
    now apply (raise_all_cons (item_index _ _) (item_rank _ _)).
Qed.

Lemma HLL_Improved_add_all_closed items : forall st,
  HLL_Improved.valid st ->
  HLL_Improved.add_all st items
  = Some (HLL_Improved.mk (HLL_Improved.B st) (HLL_Improved.m st)
            (raise_all (item_index (HLL_Improved.B st) (HLL_Improved.hash_func st))
               (item_rank_clamped (HLL_Improved.B st) (HLL_Improved.hash_func st))
               (HLL_Improved.regs st) items)
            (HLL_Improved.hash_func st)).
Proof.
  induction items as [|s items IH]; intros st Hv.
  - cbn. rewrite raise_all_nil. now destruct st.
  - cbn [HLL_Improved.add_all].
    destruct (HLL_Improved_add_max st s Hv)
      as (old & st' & Hold & Hadd & Hregs & HB & Hm & Hh).
    rewrite Hadd. cbn [mbind option_bind].
    destruct (HLL_Improved_add_inv st s st' Hv Hadd) as (Hv' & _).
    rewrite (IH st' Hv'), HB, Hm, Hh, Hregs. do 2 f_equal.
    now apply (raise_all_cons (item_index _ _) (item_rank_clamped _ _)).
Qed.

(** X2: strings whose hashes collide keep colliding under any common
    suffix, and a sketch of either class fed by [HashGen::hash] cannot
    tell them apart: [add] of one equals [add] of the other, and adding
    both leaves the sketch that adding one leaves. *)
Theorem colliding_items_indistinguishable
    (a b s : string) (st : HLL.t) (st2 : HLL_Improved.t) :
  HashGen.hash a = HashGen.hash b ->
  HLL.valid st -> HLL.hash_func st = HashGen.hash ->
  HLL_Improved.valid st2 -> HLL_Improved.hash_func st2 = HashGen.hash ->
  HashGen.hash (a +:+ s) = HashGen.hash (b +:+ s) /\
  HLL.add st (a +:+ s) = HLL.add st (b +:+ s) /\
  HLL.add_all st [a +:+ s; b +:+ s] = HLL.add st (a +:+ s) /\
  HLL_Improved.add st2 (a +:+ s) = HLL_Improved.add st2 (b +:+ s) /\
  HLL_Improved.add_all st2 [a +:+ s; b +:+ s] = HLL_Improved.add st2 (a +:+ s).
Proof.
  intros Hab Hv Hh Hv2 Hh2.
  assert (Hs : HashGen.hash (a +:+ s) = HashGen.hash (b +:+ s)).
  { rewrite (proj2 (hash_append a s)), (proj2 (hash_append b s)). now rewrite Hab. }
  assert (Hadd : forall t, HLL.hash_func t = HashGen.hash ->
                           HLL.add t (a +:+ s) = HLL.add t (b +:+ s)).
  { intros t Ht. unfold HLL.add, HLL.index_and_rank. now rewrite Ht, Hs. }
  assert (Hadd2 : forall t, HLL_Improved.hash_func t = HashGen.hash ->
                            HLL_Improved.add t (a +:+ s) = HLL_Improved.add t (b +:+ s)).
  { intros t Ht. unfold HLL_Improved.add, HLL_Improved.index_and_rank.
    now rewrite Ht, Hs. }
  split; [ exact Hs | ]. split; [ now apply Hadd | ]. split; [ | split; [ now apply Hadd2 | ] ].
  - cbn [HLL.add_all]. destruct (HLL_add_total st (a +:+ s) Hv) as [st' Hst'].
    rewrite Hst'. cbn [mbind option_bind].
    destruct (HLL_add_inv st _ st' Hv Hst') as (Hv' & _ & _ & Hh' & _).
    rewrite <- Hadd by congruence.
    rewrite (HLL_covers_add st' (a +:+ s) Hv' (HLL_add_covers _ _ _ Hv Hst')). done.
  - cbn [HLL_Improved.add_all].
    destruct (HLL_Improved_add_total st2 (a +:+ s) Hv2) as [st' Hst'].
    rewrite Hst'. cbn [mbind option_bind].
    destruct (HLL_Improved_add_inv st2 _ st' Hv2 Hst') as (Hv' & _ & _ & Hh' & _).
    rewrite <- Hadd2 by congruence.
    rewrite (HLL_Improved_covers_add st' (a +:+ s) Hv'
               (HLL_Improved_add_covers _ _ _ Hv2 Hst')). done.
Qed.

Lemma colliding_items_indistinguishable_witness :
  HashGen.hash "Aa" = HashGen.hash "BB" /\
  HLL.add_all (HLL.new 8 HashGen.hash) ["Aa" +:+ "x"; "BB" +:+ "x"]
  = HLL.add (HLL.new 8 HashGen.hash) ("Aa" +:+ "x").
Proof.
  assert (Hab : HashGen.hash "Aa" = HashGen.hash "BB") by reflexivity.
  assert (Hv : HLL.valid (HLL.new 8 HashGen.hash)) by valid_by_evaluation.
  assert (Hv2 : HLL_Improved.valid (HLL_Improved.new 8 HashGen.hash))
    by valid_by_evaluation.
  split; [ exact Hab | ].
  exact (proj1 (proj2 (proj2 (colliding_items_indistinguishable "Aa" "BB" "x"
    _ _ Hab Hv eq_refl Hv2 eq_refl)))).
Defined.

(** X3: on a valid sketch of either class, a sequence of [add] calls
    returns, and the sketch it leaves, so also what [estimate] returns on
    it, depends only on the set of the strings added: neither their order
    nor their repetition matters. *)
Theorem add_all_same_items (log : float -> float)
    (st : HLL.t) (st2 : HLL_Improved.t) (l1 l2 : list string) :
  HLL.valid st -> HLL_Improved.valid st2 ->
  (forall s, s ∈ l1 <-> s ∈ l2) ->
  (is_Some (HLL.add_all st l1) /\
   HLL.add_all st l1 = HLL.add_all st l2 /\
   HLL.estimate log <$> HLL.add_all st l1 = HLL.estimate log <$> HLL.add_all st l2) /\
  (is_Some (HLL_Improved.add_all st2 l1) /\
   HLL_Improved.add_all st2 l1 = HLL_Improved.add_all st2 l2 /\
   HLL_Improved.estimate log <$> HLL_Improved.add_all st2 l1
   = HLL_Improved.estimate log <$> HLL_Improved.add_all st2 l2).
Proof.
  intros Hv Hv2 Hsame.
  assert (H1 : HLL.add_all st l1 = HLL.add_all st l2).
  { rewrite !HLL_add_all_closed by done. do 2 f_equal. now apply raise_all_same_items. }
  assert (H2 : HLL_Improved.add_all st2 l1 = HLL_Improved.add_all st2 l2).
  { rewrite !HLL_Improved_add_all_closed by done. do 2 f_equal.
    now apply raise_all_same_items. }
  split; (split; [ | split; [ done | ] ]).
  - rewrite HLL_add_all_closed by done. eauto.
  - now rewrite H1.
  - rewrite HLL_Improved_add_all_closed by done. eauto.
  - now rewrite H2.
Qed.

Lemma add_all_same_items_witness :
  HLL.valid (HLL.new 8 HashGen.hash) /\
  HLL_Improved.valid (HLL_Improved.new 8 HashGen.hash) /\
  (forall s, s ∈ ["a"; "b"; "a"] <-> s ∈ ["b"; "a"]) /\
  HLL.add_all (HLL.new 8 HashGen.hash) ["a"; "b"; "a"]
  = HLL.add_all (HLL.new 8 HashGen.hash) ["b"; "a"].
Proof.
  assert (Hv : HLL.valid (HLL.new 8 HashGen.hash)) by valid_by_evaluation.
  assert (Hv2 : HLL_Improved.valid (HLL_Improved.new 8 HashGen.hash))
    by valid_by_evaluation.
  assert (Hs : forall s, s ∈ ["a"; "b"; "a"] <-> s ∈ ["b"; "a"])
    by (intros s; rewrite !elem_of_cons, !elem_of_nil; tauto).
  split; [ exact Hv | ]. split; [ exact Hv2 | ]. split; [ exact Hs | ].
  exact (proj1 (proj2 (proj1 (add_all_same_items (fun x => x) _ _ _ _ Hv Hv2 Hs)))).
Defined.

(** * The compact registers are the naive registers capped at 31 *)

Lemma top_rank_clamped idx rank i items : forall old,
  top_rank idx (fun s => HLL_Improved.clamp (rank s)) i (Z.min old 31) items
  = Z.min (top_rank idx rank i old items) 31.
Proof.
  induction items as [|s items IH]; intros old; [ done | ].
  rewrite !top_rank_cons. case_decide; [ | apply IH ].
  rewrite clamp_min, <- IH. f_equal. lia.
Qed.

(** X4: at every precision in [1,16], after the same [add] calls on a
    new sketch of each class, every register of [HLL_Improved] is the
    register of [HLL] at the same index, capped at 31. *)
Theorem compact_registers_are_capped (b : Z) (h : string -> Z) (items : list string) :
  1 <= b <= 16 ->
  exists s1 s2,
    HLL.add_all (HLL.new b h) items = Some s1 /\
    HLL_Improved.add_all (HLL_Improved.new b h) items = Some s2 /\
    HLL_Improved.regs s2 = (fun r => Z.min r 31) <$> HLL.regs s1.
Proof.
  intros Hb. eexists. eexists.
  split; [ apply HLL_add_all_closed, HLL_new_valid, Hb | ].
  split; [ apply HLL_Improved_add_all_closed, HLL_Improved_new_valid, Hb | ].
  cbn [HLL.regs HLL_Improved.regs HLL.new HLL_Improved.new HLL.B HLL_Improved.B
       HLL.hash_func HLL_Improved.hash_func].
  apply list_eq. intros i. rewrite list_lookup_fmap, !raise_all_lookup.
  change (bitset5 0) with 0.
  destruct (replicate _ 0 !! i) as [r|] eqn:Hr; [ | done ].
  apply lookup_replicate in Hr. destruct Hr as [-> _]. cbn [fmap option_fmap option_map].
  f_equal. apply (top_rank_clamped _ (item_rank b h) i items 0).
Qed.

Lemma compact_registers_are_capped_witness :
  1 <= 1 <= 16 /\
  exists s1 s2,
    HLL.add_all (HLL.new 1 HashGen.hash) [EmptyString; "stream"] = Some s1 /\
    HLL_Improved.add_all (HLL_Improved.new 1 HashGen.hash) [EmptyString; "stream"]
      = Some s2 /\
    HLL_Improved.regs s2 = (fun r => Z.min r 31) <$> HLL.regs s1.
Proof.
  assert (Hb : 1 <= 1 <= 16) by lia.
  split; [ exact Hb | ].
  exact (compact_registers_are_capped 1 HashGen.hash [EmptyString; "stream"] Hb).
Defined.

(** * Bounds of the registers *)

Lemma HLL_Improved_reachable_bound b h st :
  1 <= b <= 16 -> HLL_Improved.reachable b h st ->
  Forall (fun r => 0 <= r <= Z.min 31 (33 - b)) (HLL_Improved.regs st).
Proof.
  intros Hb Hr. induction Hr as [ | st s st' Hr IH Hadd ].
  - apply Forall_replicate. change (bitset5 0) with 0. lia.
  - destruct (HLL_Improved_reachable_valid b h st Hb Hr) as (Hv & HB & _).
    destruct (HLL_Improved_add_max st s Hv) as (old & st1 & Hold & Hadd1 & Hregs & _).
    assert (st1 = st') by congruence. subst st1. rewrite Hregs.
    apply Forall_insert; [ done | ].
    pose proof (Forall_lookup_1 _ _ _ _ IH Hold) as Ho. cbn beta in Ho.
    rewrite clamp_min, HB.
    pose proof (spec_rank_range b (wrap32 (HLL_Improved.hash_func st s)) Hb). lia.
Qed.

Lemma index_rank_of_zero b : 1 <= b <= 16 -> spec_index b 0 = 0 /\ spec_rank b 0 = 33 - b.
Proof.
  intros Hb. unfold spec_index, spec_rank, spec_remainder.
  rewrite Z.shiftr_0_l, Z.shiftl_0_l. change (wrap32 0) with 0.
  rewrite leading_zeros_zero. lia.
Qed.

(** X5: in every reachable sketch of precision [b] the registers of
    [HLL] lie in [0, 33 - b] and those of [HLL_Improved] in
    [0, min(31, 33 - b)]; the upper bounds are reached: a string whose
    hash is 0 sets register 0 of a new sketch to them. *)
Theorem register_bounds (b : Z) (h : string -> Z)
    (st : HLL.t) (st2 : HLL_Improved.t) (s : string) :
  1 <= b <= 16 -> HLL.reachable b h st -> HLL_Improved.reachable b h st2 ->
  Forall (fun r => 0 <= r <= 33 - b) (HLL.regs st) /\
  Forall (fun r => 0 <= r <= Z.min 31 (33 - b)) (HLL_Improved.regs st2) /\
  (wrap32 (h s) = 0 ->
   HLL.regs <$> HLL.add (HLL.new b h) s
     = Some (<[0%nat := 33 - b]> (replicate (Z.to_nat (2 ^ b)) 0)) /\
   HLL_Improved.regs <$> HLL_Improved.add (HLL_Improved.new b h) s
     = Some (<[0%nat := Z.min 31 (33 - b)]> (replicate (Z.to_nat (2 ^ b)) 0))).
Proof.
  intros Hb Hr Hr2. split; [ now apply (HLL_reachable_range b h) | ].
  split; [ now apply (HLL_Improved_reachable_bound b h) | ].
  intros H0. destruct (index_rank_of_zero b Hb) as (Hi & Hk).
  assert (Hlt : (0 < Z.to_nat (2 ^ b))%nat)
    by (assert (0 < 2 ^ b) by (apply Z.pow_pos_nonneg; lia); lia).
  split.
  - destruct (HLL_add_max (HLL.new b h) s (HLL_new_valid b h Hb))
      as (old & st' & Hold & Hadd & Hregs & _).
    cbn [HLL.new HLL.B HLL.regs HLL.hash_func] in Hold, Hregs.
    unfold shl_int in Hold, Hregs. rewrite Z.shiftl_1_l, H0, Hi in Hold.
    rewrite Z.shiftl_1_l, H0, Hi, Hk in Hregs.
    change (Z.to_nat 0) with 0%nat in Hold, Hregs.
    rewrite lookup_replicate_2 in Hold by done. injection Hold as <-.
    rewrite Hadd. cbn [fmap option_fmap option_map]. rewrite Hregs. do 2 f_equal. lia.
  - destruct (HLL_Improved_add_max (HLL_Improved.new b h) s (HLL_Improved_new_valid b h Hb))
      as (old & st' & Hold & Hadd & Hregs & _).
    cbn [HLL_Improved.new HLL_Improved.B HLL_Improved.regs HLL_Improved.hash_func]
      in Hold, Hregs.
    unfold shl_int in Hold, Hregs. change (bitset5 0) with 0 in Hold, Hregs.
    rewrite Z.shiftl_1_l, H0, Hi in Hold.
    rewrite Z.shiftl_1_l, H0, Hi, Hk, clamp_min in Hregs.
    change (Z.to_nat 0) with 0%nat in Hold, Hregs.
    rewrite lookup_replicate_2 in Hold by done. injection Hold as <-.
    rewrite Hadd. cbn [fmap option_fmap option_map]. rewrite Hregs. do 2 f_equal. lia.
Qed.

Lemma register_bounds_witness :
  1 <= 1 <= 16 /\
  HLL.reachable 1 HashGen.hash (HLL.new 1 HashGen.hash) /\
  HLL_Improved.reachable 1 HashGen.hash (HLL_Improved.new 1 HashGen.hash) /\
  wrap32 (HashGen.hash EmptyString) = 0 /\
  HLL.regs <$> HLL.add (HLL.new 1 HashGen.hash) EmptyString = Some [32; 0] /\
  HLL_Improved.regs <$> HLL_Improved.add (HLL_Improved.new 1 HashGen.hash) EmptyString
    = Some [31; 0].
Proof.
  assert (Hb : 1 <= 1 <= 16) by lia.
  assert (H0 : wrap32 (HashGen.hash EmptyString) = 0) by reflexivity.
  split; [ exact Hb | ]. split; [ apply HLL.reach_new | ].
  split; [ apply HLL_Improved.reach_new | ]. split; [ exact H0 | ].
  exact (proj2 (proj2 (register_bounds 1 HashGen.hash _ _ EmptyString Hb
    (HLL.reach_new 1 HashGen.hash) (HLL_Improved.reach_new 1 HashGen.hash))) H0).
Defined.

(** X6: after [clear], a reachable [HLL] behaves as a new sketch of
    the same precision and hash: the same [add] calls leave the same
    sketch, and any sequence of calls returns the same estimates. *)
Theorem clear_restarts (log : float -> float) (b : Z) (h : string -> Z)
    (st : HLL.t) (items : list string) (cs : list HLL.call) :
  1 <= b <= 16 -> HLL.reachable b h st ->
  HLL.add_all (HLL.clear st) items = HLL.add_all (HLL.new b h) items /\
  HLL.run log st (HLL.Clear :: cs) = HLL.run log (HLL.new b h) cs.
Proof.
  intros Hb Hr. rewrite <- (HLL_clear_is_new b h st Hb Hr). split; [ done | ].
  cbn [HLL.run HLL.step mbind option_bind].
  destruct (HLL.run log (HLL.clear st) cs) as [[st2 out2]|]; reflexivity.
Qed.

Lemma clear_restarts_witness :
  exists st,
    HLL.add (HLL.new 4 HashGen.hash) "cardinality" = Some st /\
    HLL.regs st = [0; 0; 0; 3; 0; 0; 0; 0; 0; 0; 0; 0; 0; 0; 0; 0] /\
    1 <= 4 <= 16 /\ HLL.reachable 4 HashGen.hash st /\
    HLL.add_all (HLL.clear st) ["stream"; "a"]
    = HLL.add_all (HLL.new 4 HashGen.hash) ["stream"; "a"] /\
    HLL.run (fun x => x) st [HLL.Clear; HLL.Add "stream"; HLL.Estimate]
    = HLL.run (fun x => x) (HLL.new 4 HashGen.hash) [HLL.Add "stream"; HLL.Estimate].
Proof.
  assert (Hb : 1 <= 4 <= 16) by lia.
  assert (Hv : HLL.valid (HLL.new 4 HashGen.hash)) by valid_by_evaluation.
  destruct (HLL_add_total _ "cardinality" Hv) as [st Hadd].
  assert (Hregs : HLL.regs <$> HLL.add (HLL.new 4 HashGen.hash) "cardinality"
                  = Some [0; 0; 0; 3; 0; 0; 0; 0; 0; 0; 0; 0; 0; 0; 0; 0])
    by (vm_compute; reflexivity).
  rewrite Hadd in Hregs. injection Hregs as Hregs.
  assert (Hr : HLL.reachable 4 HashGen.hash st)
    by exact (HLL.reach_add _ _ _ _ _ (HLL.reach_new 4 HashGen.hash) Hadd).
  exists st. split; [ exact Hadd | ]. split; [ exact Hregs | ].
  split; [ exact Hb | ]. split; [ exact Hr | ].
  split.
  - exact (proj1 (clear_restarts (fun x => x) 4 HashGen.hash st ["stream"; "a"]
                    [HLL.Add "stream"; HLL.Estimate] Hb Hr)).
  - exact (proj2 (clear_restarts (fun x => x) 4 HashGen.hash st ["stream"; "a"]
                    [HLL.Add "stream"; HLL.Estimate] Hb Hr)).
Defined.

(** * [split_stream] *)

Lemma part_size_percent size p :
  0 <= size < 2 ^ 31 -> 0 <= p ->
  size * p / 100 < 2 ^ 31 -> p < 2 ^ 31 ->
  StreamGen.part_size size p = size * p / 100.
Proof.
  intros Hs Hp Hn Hp31. unfold StreamGen.part_size, int_of_size_t, int_of_uint32.
  assert (Hq : 0 <= size * p / 100) by (apply Z.div_pos; nia).
  unfold wrap64. rewrite (Z.mod_small p) by lia. rewrite Z.mod_small by nia.
  rewrite wrap32_small by lia.
  now replace (size * p / 100 <? 2 ^ 31)%Z with true by (symmetry; apply Z.ltb_lt; lia).
Qed.

Lemma split_part_percent s p :
  Z.of_nat (length s) < 2 ^ 31 -> 0 <= p <= 100 ->
  StreamGen.split_part s p
  = Some (take (Z.to_nat (Z.of_nat (length s) * p / 100)) s) /\
  0 <= Z.of_nat (length s) * p / 100 <= Z.of_nat (length s).
Proof.
  intros Hs Hp. set (len := Z.of_nat (length s)) in *.
  assert (Hn : 0 <= len * p / 100 <= len).
  { split; [ apply Z.div_pos; nia | ]. apply Z.div_le_upper_bound; nia. }
  split; [ | done ]. unfold StreamGen.split_part. fold len.
  rewrite part_size_percent by lia.
  now replace ((0 <=? len * p / 100) && (len * p / 100 <=? len))%Z with true
    by (symmetry; apply andb_true_iff; lia).
Qed.

(** X7: on a stream of fewer than [2^31] strings and percentages in
    [0,100], [split_stream] returns one part per percentage, the part of
    [p] being the first [size * p / 100] strings (rounded down); so the
    part of a smaller percentage is a prefix of the part of a larger one,
    that of 100 is the whole stream and that of 0 is empty. *)
Theorem split_stream_prefixes (s : list string) (percents : list Z) :
  Z.of_nat (length s) < 2 ^ 31 ->
  Forall (fun p => 0 <= p <= 100) percents ->
  let n p := Z.to_nat (Z.of_nat (length s) * p / 100) in
  StreamGen.split_stream s percents = Some ((fun p => take (n p) s) <$> percents) /\
  (forall p, 0 <= p <= 100 -> length (take (n p) s) = n p) /\
  (forall p q, 0 <= p <= q -> q <= 100 -> take (n p) s `prefix_of` take (n q) s) /\
  take (n 100) s = s /\ take (n 0) s = [].
Proof.
  intros Hs Hps n. split; [ | split; [ | split; [ | split ] ] ].
  - unfold StreamGen.split_stream. apply mapM_Some_2.
    induction Hps as [|p ps Hp Hps IH]; cbn; constructor; [ | done ].
    now apply split_part_percent.
  - intros p Hp. rewrite length_take. subst n. cbn beta.
    destruct (split_part_percent s p Hs Hp) as [_ Hn]. lia.
  - intros p q Hpq Hq.
    assert (Hle : (n p <= n q)%nat).
    { subst n. cbn beta. apply Z2Nat.inj_le; try (apply Z.div_pos; nia).
      apply Z.div_le_mono; nia. }
    replace (take (n p) s) with (take (n p) (take (n q) s))
      by (rewrite take_take; f_equal; lia).
    apply prefix_take.
  - subst n. cbn beta. rewrite Z.div_mul by lia. rewrite Nat2Z.id. apply firstn_all.
  - subst n. cbn beta. now rewrite Z.mul_0_r.
Qed.

Lemma split_stream_prefixes_witness :
  Z.of_nat (length ["a"; "b"; "c"; "d"]) < 2 ^ 31 /\
  Forall (fun p => 0 <= p <= 100) [50; 100] /\
  StreamGen.split_stream ["a"; "b"; "c"; "d"] [50; 100]
  = Some [["a"; "b"]; ["a"; "b"; "c"; "d"]].
Proof.
  assert (Hs : Z.of_nat (length ["a"; "b"; "c"; "d"]) < 2 ^ 31) by (cbn; lia).
  assert (Hp : Forall (fun p => 0 <= p <= 100) [50; 100]) by (repeat constructor; lia).
  split; [ exact Hs | ]. split; [ exact Hp | ].
  exact (proj1 (split_stream_prefixes _ _ Hs Hp)).
Defined.

(** X8: a percentage whose part size [size * p / 100] exceeds the size
    of the stream makes [split_stream] read past the end of the stream:
    the call is undefined. *)
Theorem split_stream_past_the_end (s : list string) (percents : list Z) (p : Z) :
  p ∈ percents -> 0 <= p < 2 ^ 31 ->
  Z.of_nat (length s) < Z.of_nat (length s) * p / 100 < 2 ^ 31 ->
  StreamGen.split_part s p = None /\ StreamGen.split_stream s percents = None.
Proof.
  intros Hin Hp Hn.
  assert (Hnone : StreamGen.split_part s p = None).
  { unfold StreamGen.split_part. rewrite part_size_percent by lia.
    now replace (_ <=? Z.of_nat (length s))%Z with false
      by (symmetry; apply Z.leb_gt; lia); rewrite andb_false_r. }
  split; [ exact Hnone | ].
  destruct (StreamGen.split_stream s percents) as [parts|] eqn:Hsplit; [ | done ].
  assert (Hall : is_Some (mapM (StreamGen.split_part s) percents))
    by (unfold StreamGen.split_stream in Hsplit; rewrite Hsplit; eauto).
  apply mapM_is_Some_1 in Hall. rewrite Forall_forall in Hall.
  specialize (Hall p Hin). cbn in Hall. rewrite Hnone in Hall. now destruct Hall.
Qed.

Lemma split_stream_past_the_end_witness :
  150 ∈ [50; 150] /\ 0 <= 150 < 2 ^ 31 /\
  Z.of_nat (length ["a"; "b"]) < Z.of_nat (length ["a"; "b"]) * 150 / 100 < 2 ^ 31 /\
  StreamGen.split_stream ["a"; "b"] [50; 150] = None.
Proof.
  assert (Hin : 150 ∈ [50; 150]) by (rewrite !elem_of_cons; tauto).
  assert (Hp : 0 <= 150 < 2 ^ 31) by lia.
  assert (Hn : Z.of_nat (length ["a"; "b"])
               < Z.of_nat (length ["a"; "b"]) * 150 / 100 < 2 ^ 31)
    by (split; reflexivity).
  split; [ exact Hin | ]. split; [ exact Hp | ]. split; [ exact Hn | ].
  exact (proj2 (split_stream_past_the_end _ _ 150 Hin Hp Hn)).
Defined.

(** * [count_unique] *)

Lemma int_of_size_t_small x : 0 <= x < 2 ^ 31 -> int_of_size_t x = x.
Proof.
  intros Hx. unfold int_of_size_t, int_of_uint32. rewrite wrap32_small by lia.
  now replace (x <? 2 ^ 31)%Z with true by (symmetry; apply Z.ltb_lt; lia).
Qed.

Lemma length_remove_dups_le (l : list string) :
  (length (remove_dups l) <= length l)%nat.
Proof.
  induction l as [|x l IH]; [ done | ]. cbn [remove_dups].
  case_decide; cbn [length]; lia.
Qed.

Lemma length_remove_dups_NoDup (l : list string) :
  length (remove_dups l) = length l -> NoDup l.
Proof.
  induction l as [|x l IH]; [ constructor | ]. cbn [remove_dups].
  pose proof (length_remove_dups_le l).
  case_decide as Hx; cbn [length]; intros Hlen; [ lia | ].
  constructor; [ done | apply IH; lia ].
Qed.

Lemma size_set_of_list (l : list string) :
  size (list_to_set l : gset string) = length (remove_dups l).
Proof.
  rewrite <- (size_list_to_set (C := gset string) (remove_dups l))
    by apply NoDup_remove_dups.
  f_equal. apply set_eq. intros x.
  now rewrite !elem_of_list_to_set, elem_of_remove_dups.
Qed.

(** X9: on a stream of fewer than [2^31] strings, [count_unique]
    returns the number of distinct strings: it lies between 0 and the
    length, equals the length exactly when no string repeats, depends only
    on the set of the strings, and is unchanged when the stream is
    repeated. *)
Theorem count_unique_spec (l1 l2 : list string) :
  Z.of_nat (length l1) < 2 ^ 31 -> Z.of_nat (length l2) < 2 ^ 31 ->
  count_unique l1 = Z.of_nat (length (remove_dups l1)) /\
  0 <= count_unique l1 <= Z.of_nat (length l1) /\
  (count_unique l1 = Z.of_nat (length l1) <-> NoDup l1) /\
  ((forall s, s ∈ l1 <-> s ∈ l2) -> count_unique l1 = count_unique l2) /\
  count_unique (l1 ++ l1) = count_unique l1.
Proof.
  intros H1 H2.
  assert (Hcount : forall l, Z.of_nat (length l) < 2 ^ 31 ->
            count_unique l = Z.of_nat (length (remove_dups l))).
  { intros l Hl. unfold count_unique. rewrite size_set_of_list.
    pose proof (length_remove_dups_le l). apply int_of_size_t_small. lia. }
  assert (Hsame : forall l l' : list string, (forall s, s ∈ l <-> s ∈ l') ->
            count_unique l = count_unique l').
  { intros l l' Hs. unfold count_unique. do 3 f_equal. apply set_eq. intros x.
    rewrite !elem_of_list_to_set. apply Hs. }
  pose proof (length_remove_dups_le l1) as Hle.
  split; [ now apply Hcount | ]. rewrite (Hcount l1 H1).
  split; [ lia | ]. split; [ | split; [ rewrite <- (Hcount l1 H1); now apply Hsame | ] ].
  - split.
    + intros Heq. apply length_remove_dups_NoDup. lia.
    + intros Hnd. f_equal. apply (f_equal length).
      clear -Hnd. induction Hnd as [|x l Hx Hnd IH]; [ done | ].
      cbn [remove_dups]. case_decide; [ done | ]. cbn [length]. now rewrite IH.
  - rewrite <- (Hcount l1 H1). apply Hsame. intros s. rewrite elem_of_app. tauto.
Qed.

Lemma count_unique_spec_witness :
  Z.of_nat (length ["a"; "b"; "a"]) < 2 ^ 31 /\
  Z.of_nat (length ["b"; "a"]) < 2 ^ 31 /\
  count_unique ["a"; "b"; "a"] = Z.of_nat (length (remove_dups ["a"; "b"; "a"])).
Proof.
  assert (H1 : Z.of_nat (length ["a"; "b"; "a"]) < 2 ^ 31) by reflexivity.
  assert (H2 : Z.of_nat (length ["b"; "a"]) < 2 ^ 31) by reflexivity.
  split; [ exact H1 | ]. split; [ exact H2 | ].
  exact (proj1 (count_unique_spec _ _ H1 H2)).
Defined.

(** * The buckets of [HashGen::test] *)

Lemma hits_cons k s stream :
  hits k (s :: stream)
  = (if decide (Z.to_nat (HashGen.hash s mod 100) = k) then 1 else 0) + hits k stream.
Proof.
  unfold hits. case_decide.
  - rewrite filter_cons_True by done. cbn [length]. lia.
  - rewrite filter_cons_False by done. lia.
Qed.

Lemma bucket_in_range s : (Z.to_nat (HashGen.hash s mod 100) < 100)%nat.
Proof. pose proof (Z.mod_pos_bound (HashGen.hash s) 100). lia. Qed.

Lemma count_items_closed stream : forall counts,
  length counts = 100%nat ->
  Forall (fun c => c + Z.of_nat (length stream) < 2 ^ 31) counts ->
  HashGen.count_items counts stream
  = Some (imap (fun k c => c + hits k stream) counts).
Proof.
  induction stream as [|s stream IH]; intros counts Hlen Hsmall.
  - cbn [HashGen.count_items]. f_equal. apply list_eq. intros i.
    rewrite list_lookup_imap. destruct (counts !! i) as [c|]; [ | done ].
    cbn. f_equal. unfold hits. cbn. lia.
  - cbn [HashGen.count_items]. unfold HashGen.count_item.
    set (k := Z.to_nat (HashGen.hash s mod 100)).
    pose proof (bucket_in_range s) as Hk. fold k in Hk.
    destruct (lookup_lt_is_Some_2 counts k) as [c Hc]; [ lia | ].
    rewrite Hc. cbn [mbind option_bind].
    pose proof (Forall_lookup_1 _ _ _ _ Hsmall Hc) as Hcs. cbn beta in Hcs.
    cbn [length] in Hcs.
    unfold HashGen.incr_int.
    replace (c <? 2 ^ 31 - 1)%Z with true by (symmetry; apply Z.ltb_lt; lia).
    cbn [mbind option_bind]. rewrite IH.
    + f_equal. apply list_eq. intros i. rewrite !list_lookup_imap.
      destruct (decide (k = i)) as [<- | Hne].
      * rewrite list_lookup_insert_eq, Hc by lia. cbn. f_equal.
        rewrite hits_cons. fold k. rewrite decide_True by done. lia.
      * rewrite list_lookup_insert_ne by done.
        destruct (counts !! i) as [ci|]; [ | done ]. cbn. f_equal.
        rewrite hits_cons. fold k. rewrite decide_False by done. lia.
    + now rewrite length_insert.
    + apply Forall_insert; [ | lia ].
      eapply Forall_impl; [ exact Hsmall | ]. cbn. intros x Hx. lia.
Qed.

Lemma sum_insert (l : list Z) : forall k old v,
  l !! k = Some old -> foldr Z.add 0 (<[k := v]> l) = foldr Z.add 0 l - old + v.
Proof.
  induction l as [|x l IH]; intros k old v Hk; [ done | ].
  destruct k as [|k].
  - cbn in *. injection Hk as ->. lia.
  - change (x + foldr Z.add 0 (<[k := v]> l) = x + foldr Z.add 0 l - old + v).
    rewrite (IH k old v Hk). lia.
Qed.

Lemma count_items_sum stream : forall counts counts',
  HashGen.count_items counts stream = Some counts' ->
  foldr Z.add 0 counts' = foldr Z.add 0 counts + Z.of_nat (length stream).
Proof.
  induction stream as [|s stream IH]; intros counts counts' Hrun.
  - cbn in Hrun. injection Hrun as <-. cbn. lia.
  - cbn [HashGen.count_items] in Hrun.
    destruct (HashGen.count_item counts s) as [c1|] eqn:Hitem; [ | done ].
    cbn [mbind option_bind] in Hrun. rewrite (IH _ _ Hrun).
    unfold HashGen.count_item in Hitem.
    destruct (counts !! _) as [c|] eqn:Hc; [ | done ]. cbn [mbind option_bind] in Hitem.
    unfold HashGen.incr_int in Hitem. destruct (c <? 2 ^ 31 - 1)%Z; [ | done ].
    cbn [mbind option_bind] in Hitem. injection Hitem as <-.
    rewrite (sum_insert _ _ _ _ Hc). cbn [length]. lia.
Qed.

(** X10: on a stream of fewer than [2^31] strings the first loop of
    [HashGen::test] never indexes outside its 100 counters nor overflows
    one; counter [k] ends at the number of strings whose hash is [k]
    modulo 100, the counters add up to the length of the stream, and
    [test] returns. *)
Theorem bucket_counts_spec (stream : list string) :
  Z.of_nat (length stream) < 2 ^ 31 ->
  exists counts,
    HashGen.bucket_counts stream = Some counts /\
    length counts = 100%nat /\
    (forall k, (k < 100)%nat -> counts !! k = Some (hits k stream)) /\
    foldr Z.add 0 counts = Z.of_nat (length stream) /\
    is_Some (HashGen.test stream).
Proof.
  intros Hlen.
  assert (Hrun : HashGen.bucket_counts stream
                 = Some (imap (fun k c => c + hits k stream) (replicate 100 0))).
  { apply count_items_closed; [ apply length_replicate | ].
    apply Forall_replicate. lia. }
  eexists. split; [ exact Hrun | ]. split; [ | split; [ | split ] ].
  - now rewrite length_imap, length_replicate.
  - intros k Hk. now rewrite list_lookup_imap, lookup_replicate_2 by done.
  - rewrite (count_items_sum _ _ _ Hrun). cbn. lia.
  - unfold HashGen.test. rewrite Hrun. cbn [mbind option_bind]. eauto.
Qed.

Lemma bucket_counts_spec_witness :
  Z.of_nat (length ["a"; "b"; "a"]) < 2 ^ 31 /\
  exists counts,
    HashGen.bucket_counts ["a"; "b"; "a"] = Some counts /\
    length counts = 100%nat /\
    (forall k, (k < 100)%nat -> counts !! k = Some (hits k ["a"; "b"; "a"])) /\
    foldr Z.add 0 counts = Z.of_nat (length ["a"; "b"; "a"]) /\
    is_Some (HashGen.test ["a"; "b"; "a"]).
Proof.
  assert (Hlen : Z.of_nat (length ["a"; "b"; "a"]) < 2 ^ 31) by reflexivity.
  split; [ exact Hlen | ]. exact (bucket_counts_spec _ Hlen).
Defined.

Lemma test_single s :
  HashGen.test [s] = Some (chi2_single (Z.to_nat (HashGen.hash s mod 100))).
Proof.
  unfold HashGen.test, HashGen.bucket_counts. cbn [HashGen.count_items].
  unfold HashGen.count_item.
  rewrite lookup_replicate_2 by apply bucket_in_range. reflexivity.
Qed.

Lemma chi2_single_near_99 k :
  (k < 100)%nat ->
  (98.999 <=? chi2_single k)%float = true /\ (chi2_single k <=? 99.001)%float = true.
Proof.
  intros Hk.
  assert (Hall : forallb (fun k => (98.999 <=? chi2_single k)%float
                                   && (chi2_single k <=? 99.001)%float) (seq 0 100) = true)
    by (vm_compute; reflexivity).
  rewrite forallb_forall in Hall. apply andb_true_iff, Hall, in_seq. lia.
Qed.

(** X11: on an empty stream [HashGen::test] divides 0 by 0 and its
    [chi2] is NaN; on a stream of one string, whatever the string, [chi2]
    is 99 up to rounding. *)
Theorem test_of_small_streams :
  is_nan <$> HashGen.test [] = Some true /\
  (forall s, exists chi2,
     HashGen.test [s] = Some chi2 /\
     (98.999 <=? chi2)%float = true /\ (chi2 <=? 99.001)%float = true).
Proof.
  split; [ vm_compute; reflexivity | ]. intros s.
  eexists. split; [ apply test_single | ].
  apply chi2_single_near_99, bucket_in_range.
Qed.

(** * [make_string] and [make_stream] *)

Lemma get_in_range (s : string) : forall n,
  (n < String.length s)%nat -> exists c, String.get n s = Some c.
Proof.
  induction s as [|a s IH]; intros n Hn; cbn in Hn; [ lia | ].
  destruct n as [|n]; cbn; [ eauto | apply IH; lia ].
Qed.

Lemma get_push_back (s : string) (a : ascii) : forall n c,
  String.get n (s +:+ String a EmptyString) = Some c ->
  String.get n s = Some c \/ c = a.
Proof.
  induction s as [|x s IH]; intros n c Hget; cbn in Hget.
  - destruct n as [|n]; cbn in Hget; [ injection Hget as <-; now right | ].
    destruct n; discriminate.
  - destruct n as [|n]; cbn; [ now left | now apply IH ].
Qed.

Lemma length_push_back (s : string) (a : ascii) :
  String.length (s +:+ String a EmptyString) = S (String.length s).
Proof.
  induction s as [|x s IH]; [ done | ].
  change (S (String.length (s +:+ String a EmptyString)) = S (S (String.length s))).
  now f_equal.
Qed.

Section GeneratedStrings.
Variable G : Type.
Variable uniform_int : Z -> Z -> G -> Z * G.
(** What the C++ standard says of [uniform_int_distribution(a, b)]: the
    number drawn lies in [a, b]. *)
Hypothesis uniform_int_range :
  forall a b gen, a <= b -> a <= fst (uniform_int a b gen) <= b.

Lemma make_string_loop_shape todo : forall s gen,
  over_chars s ->
  exists s' gen',
    StreamGen.make_string_loop G uniform_int todo s gen = Some (s', gen') /\
    String.length s' = (String.length s + todo)%nat /\ over_chars s'.
Proof.
  induction todo as [|todo IH]; intros s gen Hs.
  - exists s, gen. cbn. split; [ done | ]. split; [ lia | done ].
  - cbn [StreamGen.make_string_loop]. unfold StreamGen.char_dist.
    pose proof (uniform_int_range 0 (Z.of_nat (String.length StreamGen.chars) - 1) gen)
      as Hk.
    destruct (uniform_int 0 _ gen) as [k gen1]. cbn [fst] in Hk.
    change (Z.of_nat (String.length StreamGen.chars) - 1) with 62 in Hk.
    specialize (Hk ltac:(lia)).
    replace (k <? 0)%Z with false by (symmetry; apply Z.ltb_ge; lia).
    destruct (get_in_range StreamGen.chars (Z.to_nat k)) as [c Hc].
    { change (String.length StreamGen.chars) with 63%nat. lia. }
    rewrite Hc. cbn [mbind option_bind].
    destruct (IH (s +:+ String c EmptyString) gen1) as (s' & gen' & Hrun & Hlen & Hover).
    { intros n x Hx. apply get_push_back in Hx. destruct Hx as [Hx | ->]; eauto. }
    exists s', gen'. split; [ done | ]. split; [ | done ].
    rewrite Hlen, length_push_back. lia.
Qed.

Lemma make_string_shape gen :
  exists s gen', StreamGen.make_string G uniform_int gen = Some (s, gen') /\ generated s.
Proof.
  unfold StreamGen.make_string, StreamGen.len_dist.
  pose proof (uniform_int_range 5 30 gen ltac:(lia)) as Hlen.
  destruct (uniform_int 5 30 gen) as [len gen1]. cbn [fst] in Hlen.
  destruct (make_string_loop_shape (Z.to_nat len) EmptyString gen1)
    as (s & gen' & Hrun & Hl & Hover).
  { intros n c Hc. destruct n; discriminate. }
  exists s, gen'. split; [ done | ]. split; [ | done ]. cbn in Hl. lia.
Qed.

Lemma make_stream_loop_shape todo : forall v gen,
  Forall generated v ->
  exists v' gen',
    StreamGen.make_stream_loop G uniform_int todo v gen = Some (v', gen') /\
    length v' = (length v + todo)%nat /\ Forall generated v'.
Proof.
  induction todo as [|todo IH]; intros v gen Hv.
  - exists v, gen. cbn. split; [ done | ]. split; [ lia | done ].
  - cbn [StreamGen.make_stream_loop].
    destruct (make_string_shape gen) as (s & gen1 & Hs & Hgen). rewrite Hs.
    cbn [mbind option_bind].
    destruct (IH (v ++ [s]) gen1) as (v' & gen' & Hrun & Hlen & Hall).
    { apply Forall_app. split; [ done | ]. now constructor. }
    exists v', gen'. split; [ done | ]. split; [ | done ].
    rewrite Hlen, length_app. cbn. lia.
Qed.

(** X12: whatever the generator, as long as each distribution returns
    a number within its bounds, [make_string] returns a string of 5 to 30
    characters, all of them from [chars], and [make_stream(n)] returns [n]
    such strings (none when [n] is negative). *)
Theorem make_stream_shape (n : Z) (gen : G) :
  (exists s gen', StreamGen.make_string G uniform_int gen = Some (s, gen') /\ generated s) /\
  (exists v gen',
     StreamGen.make_stream G uniform_int n gen = Some (v, gen') /\
     length v = Z.to_nat n /\ Forall generated v).
Proof.
  split; [ apply make_string_shape | ].
  destruct (make_stream_loop_shape (Z.to_nat n) [] gen) as (v & gen' & Hrun & Hlen & Hall);
    [ constructor | ].
  exists v, gen'. split; [ done | ]. split; [ | done ]. now rewrite Hlen.
Qed.
End GeneratedStrings.

Lemma make_stream_shape_witness :
  (forall a b gen, a <= b -> a <= fst ((fun a _ (g : unit) => (a, g)) a b gen) <= b) /\
  exists v gen',
    StreamGen.make_stream unit (fun a _ g => (a, g)) 2 tt = Some (v, gen') /\
    length v = Z.to_nat 2 /\ Forall generated v.
Proof.
  assert (Hrange : forall a b (gen : unit),
            a <= b -> a <= fst ((fun a _ (g : unit) => (a, g)) a b gen) <= b)
    by (intros a b gen Hab; cbn; lia).
  split; [ exact Hrange | ].
  exact (proj2 (make_stream_shape unit (fun a _ g => (a, g)) Hrange 2 tt)).
Defined.

(** * The experiment loop *)

Lemma HLL_add_all_app l1 : forall l2 st,
  HLL.add_all st (l1 ++ l2) = (st' ← HLL.add_all st l1; HLL.add_all st' l2).
Proof.
  induction l1 as [|s l1 IH]; intros l2 st; [ done | ].
  cbn [app HLL.add_all]. destruct (HLL.add st s) as [st1|]; [ | done ].
  cbn [mbind option_bind]. apply IH.
Qed.

Lemma HLL_add_all_same_items st l1 l2 :
  HLL.valid st -> (forall s, s ∈ l1 <-> s ∈ l2) ->
  HLL.add_all st l1 = HLL.add_all st l2.
Proof.
  intros Hv Hsame. rewrite !HLL_add_all_closed by done. do 2 f_equal.
  now apply raise_all_same_items.
Qed.

(** A sketch that holds a part of a stream, fed a part that contains it,
    holds what a new sketch fed the larger part holds. *)
Lemma HLL_add_all_absorb st prev part hll :
  HLL.valid st -> HLL.add_all st prev = Some hll ->
  (forall s, s ∈ prev -> s ∈ part) ->
  HLL.add_all hll part = HLL.add_all st part.
Proof.
  intros Hv Hprev Hsub.
  rewrite <- (HLL_add_all_same_items st (prev ++ part) part Hv).
  - now rewrite HLL_add_all_app, Hprev.
  - intros s. rewrite elem_of_app. split; [ intros [Hs | Hs]; auto | auto ].
Qed.

Lemma ascending_cons p ps :
  ascending (p :: ps) -> (forall q, q ∈ ps -> p <= q) /\ ascending ps.
Proof.
  intros Hasc. split.
  - intros q Hq. apply list_elem_of_lookup in Hq. destruct Hq as [j Hj].
    apply (Hasc 0%nat (S j) p q); [ lia | done | done ].
  - intros i j x y Hij Hx Hy. apply (Hasc (S i) (S j) x y); [ lia | done | done ].
Qed.

Section Experiment.
Variables (log : float -> float) (s : list string).
Hypothesis Hsize : Z.of_nat (length s) < 2 ^ 31.

Let part (p : Z) : list string := take (Z.to_nat (Z.of_nat (length s) * p / 100)) s.

Lemma part_subseteq p q x : 0 <= p <= q -> x ∈ part p -> x ∈ part q.
Proof.
  intros Hpq Hx. unfold part in *.
  assert (Hle : (Z.to_nat (Z.of_nat (length s) * p / 100)
                 <= Z.to_nat (Z.of_nat (length s) * q / 100))%nat).
  { apply Z2Nat.inj_le; try (apply Z.div_pos; nia). apply Z.div_le_mono; nia. }
  apply list_elem_of_lookup in Hx. destruct Hx as [i Hi].
  apply lookup_take_Some in Hi. destruct Hi as [Hi Hlt].
  apply list_elem_of_lookup. exists i. apply lookup_take_Some. split; [ done | lia ].
Qed.

Lemma split_stream_parts percents :
  Forall (fun p => 0 <= p <= 100) percents ->
  StreamGen.split_stream s percents = Some (part <$> percents).
Proof.
  intros Hps. unfold StreamGen.split_stream. apply mapM_Some_2.
  induction Hps as [|p ps Hp Hps IH]; cbn; constructor; [ | done ].
  now apply split_part_percent.
Qed.

Lemma feed_parts_alone b h percents : forall prev hll,
  1 <= b <= 16 ->
  Forall (fun p => 0 <= p <= 100) percents -> ascending percents ->
  HLL.add_all (HLL.new b h) prev = Some hll ->
  (forall p x, p ∈ percents -> x ∈ prev -> x ∈ part p) ->
  exists rows,
    Driver.feed_parts log hll (part <$> percents) = Some rows /\
    Forall2 (fun p r => Driver.feed_parts log (HLL.new b h) [part p] = Some [r])
      percents rows.
Proof.
  induction percents as [|p ps IH]; intros prev hll Hb Hps Hasc Hprev Hsub.
  - exists []. split; [ done | constructor ].
  - apply Forall_cons in Hps. destruct Hps as [Hp Hps].
    apply ascending_cons in Hasc. destruct Hasc as [Hle Hasc].
    pose proof (HLL_new_valid b h Hb) as Hv.
    assert (Hadd : HLL.add_all hll (part p) = HLL.add_all (HLL.new b h) (part p)).
    { apply (HLL_add_all_absorb _ prev); [ done | done | ].
      intros x Hx. apply Hsub; [ apply list_elem_of_here | done ]. }
    destruct (HLL_add_all_inv (part p) (HLL.new b h) Hv) as (hll' & Hnew & _).
    assert (Hnext : forall q x, q ∈ ps -> x ∈ part p -> x ∈ part q).
    { intros q x Hq Hx. apply (part_subseteq p q); [ | done ].
      specialize (Hle q Hq). lia. }
    destruct (IH (part p) hll' Hb Hps Hasc Hnew Hnext) as (rows & Hrows & Hall).
    eexists. cbn [fmap list_fmap Driver.feed_parts]. rewrite Hadd, Hnew.
    cbn [mbind option_bind]. rewrite Hrows. cbn [mbind option_bind].
    split; [ reflexivity | ]. constructor; [ | exact Hall ].
    cbn [Driver.feed_parts]. rewrite Hnew. reflexivity.
Qed.

(** X13: in one run of the experiment of [main], on a stream of fewer
    than [2^31] strings with percentages in [0,100] in ascending order,
    every row is the row that a run with that percentage alone computes:
    feeding the nested parts to the one sketch one after the other changes
    no estimate. *)
Theorem experiment_rows (percents : list Z) :
  Forall (fun p => 0 <= p <= 100) percents -> ascending percents ->
  exists rows,
    Driver.run_experiment log s percents = Some rows /\
    Forall2 (fun p r => Driver.run_experiment log s [p] = Some [r]) percents rows.
Proof.
  intros Hps Hasc. unfold Driver.run_experiment.
  rewrite split_stream_parts by done. cbn [mbind option_bind].
  assert (Hnil : forall p x, p ∈ percents -> x ∈ [] -> x ∈ part p)
    by (intros p x _ Hx; now apply elem_of_nil in Hx).
  destruct (feed_parts_alone 8 HashGen.hash percents [] (HLL.new 8 HashGen.hash)
              ltac:(lia) Hps Hasc eq_refl Hnil) as (rows & Hrows & Hall).
  exists rows. split; [ done | ].
  clear Hrows Hnil Hasc. induction Hall as [|p r ps rows Hr Hall IH]; constructor.
  - apply Forall_cons in Hps. destruct Hps as [Hp _].
    rewrite (split_stream_parts [p]) by (now constructor). exact Hr.
  - apply IH. now apply Forall_cons in Hps.
Qed.
End Experiment.

Lemma experiment_rows_witness :
  Z.of_nat (length ["a"; "b"; "c"; "d"]) < 2 ^ 31 /\
  Forall (fun p => 0 <= p <= 100) [50; 100] /\ ascending [50; 100] /\
  exists rows,
    Driver.run_experiment (fun x => x) ["a"; "b"; "c"; "d"] [50; 100] = Some rows /\
    Forall2 (fun p r => Driver.run_experiment (fun x => x) ["a"; "b"; "c"; "d"] [p]
                        = Some [r]) [50; 100] rows.
Proof.
  assert (Hs : Z.of_nat (length ["a"; "b"; "c"; "d"]) < 2 ^ 31) by reflexivity.
  assert (Hp : Forall (fun p => 0 <= p <= 100) [50; 100]) by (repeat constructor; lia).
  assert (Ha : ascending [50; 100]).
  { intros i j p q Hij Hi Hj.
    destruct i as [|[|i]], j as [|[|j]]; cbn in Hi, Hj; try discriminate; try lia;
      injection Hi as <-; injection Hj as <-; lia. }
  split; [ exact Hs | ]. split; [ exact Hp | ]. split; [ exact Ha | ].
  exact (experiment_rows (fun x => x) _ Hs _ Hp Ha).
Defined.
